(** * httptool: the shared client provider and the request pipeline

    A shallow embedding of the Go package [httptool]: the process-wide
    [client]/[once] pair behind [GetHttpClient] and [SetHttpClient], the
    functional options, and [Request] with its two entry points [Get] and
    [Post].  Package-level variables become an explicit [Globals] record
    that every operation threads through; the network, the clock and the
    loggers are observed through a trace of events. *)

From stdpp Require Import base option list strings gmap fin_maps pretty.
From Stdlib Require Import ZArith NArith Ascii Lia.

Local Open Scope Z_scope.

(* ===================================================================== *)
(** * The shared client provider *)
(* ===================================================================== *)

Module Provider.

(** A [*http.Client] that is not nil.  Pointer identity is all the package
    ever looks at: [Pooled n] is the object allocated by the [n]-th run of
    the closure handed to [once.Do], [Custom id] an object allocated by a
    caller.  A nullable pointer is an [option ClientRef]. *)
Inductive ClientRef :=
  | Pooled (n : nat)
  | Custom (id : nat).

#[global] Instance ClientRef_eq_dec : EqDecision ClientRef.
Proof. solve_decision. Defined.

(** The package-level variables [client] and [once]; of the [sync.Once]
    a single goroutine sees only whether [Do] has completed.
    [constructed] counts the runs of the constructing closure; it also
    names the next pooled object. *)
Record Globals := mkGlobals {
  client : option ClientRef;
  once : bool;
  constructed : nat;
}.

(** State of a fresh process: [var ( client *http.Client; once sync.Once )]. *)
Definition initial : Globals := mkGlobals None false 0.

(** The closure of [GetHttpClient]: build the transport with the fixed
    parameters and store a new client in [client]. *)
Definition construct (g : Globals) : Globals :=
  mkGlobals (Some (Pooled (constructed g))) (once g) (S (constructed g)).

(** [once.Do(f)] on one goroutine: [f] runs iff the flag is still clear,
    and the flag is set when [f] has returned. *)
Definition once_Do (f : Globals -> Globals) (g : Globals) : Globals :=
  if once g then g
  else let g' := f g in mkGlobals (client g') true (constructed g').

Definition GetHttpClient (g : Globals) : Globals * option ClientRef :=
  match client g with
  | Some c => (g, Some c)
  | None => let g' := once_Do construct g in (g', client g')
  end.

Definition SetHttpClient (c : option ClientRef) (g : Globals) : Globals :=
  mkGlobals c (once g) (constructed g).

(** A caller's view: a sequence of calls of the two exported functions,
    and the values the [GetHttpClient] calls returned, in order. *)
Inductive Call :=
  | CallGet
  | CallSet (c : option ClientRef).

Fixpoint run (calls : list Call) (g : Globals) : Globals * list (option ClientRef) :=
  match calls with
  | [] => (g, [])
  | CallGet :: rest =>
      let '(g1, r) := GetHttpClient g in
      let '(g2, rs) := run rest g1 in (g2, r :: rs)
  | CallSet c :: rest => run rest (SetHttpClient c g)
  end.

Lemma run_app (xs ys : list Call) (g : Globals) :
  run (xs ++ ys) g =
  (fst (run ys (fst (run xs g))), snd (run xs g) ++ snd (run ys (fst (run xs g)))).
Proof.
  revert g. induction xs as [|c xs IH]; intros g; simpl.
  - by destruct (run ys g).
  - destruct c as [|c].
    + destruct (GetHttpClient g) as [g1 r]. rewrite IH.
      by destruct (run xs g1).
    + apply IH.
Qed.

(** With a client stored, [GetHttpClient] is a pure read. *)
Lemma GetHttpClient_stored (g : Globals) (c : ClientRef) :
  client g = Some c -> GetHttpClient g = (g, Some c).
Proof. intros H. unfold GetHttpClient. by rewrite H. Qed.

(** With no client stored and the guard consumed, [GetHttpClient] returns
    nil and changes nothing. *)
Lemma GetHttpClient_consumed (g : Globals) :
  client g = None -> once g = true -> GetHttpClient g = (g, None).
Proof.
  intros Hc Hd. unfold GetHttpClient, once_Do. by rewrite Hc, Hd, Hc.
Qed.

Lemma gets_consumed (k : nat) (g : Globals) :
  client g = None -> once g = true ->
  run (replicate k CallGet) g = (g, replicate k None).
Proof.
  intros Hc Hd. induction k as [|k IH]; simpl; [done|].
  by rewrite (GetHttpClient_consumed g Hc Hd), IH.
Qed.

(** The guard is never reset: no call clears [once]. *)
Lemma GetHttpClient_done_mono (g : Globals) :
  once g = true -> once (fst (GetHttpClient g)) = true.
Proof.
  intros Hd. unfold GetHttpClient, once_Do.
  destruct (client g); simpl; [done|]. by rewrite Hd.
Qed.

Lemma run_done_mono (calls : list Call) (g : Globals) :
  once g = true -> once (fst (run calls g)) = true.
Proof.
  revert g. induction calls as [|c calls IH]; intros g Hd; simpl; [done|].
  destruct c as [|c].
  - pose proof (GetHttpClient_done_mono g Hd) as H1.
    destruct (GetHttpClient g) as [g1 r]; simpl in H1.
    specialize (IH g1 H1). by destruct (run calls g1).
  - by apply IH.
Qed.

(** A [GetHttpClient] that finds no client consumes the guard. *)
Lemma GetHttpClient_consumes (g : Globals) :
  client g = None -> once (fst (GetHttpClient g)) = true.
Proof.
  intros Hc. unfold GetHttpClient, once_Do. rewrite Hc.
  by destruct (once g) eqn:Hd.
Qed.

(** The lazy path runs the constructing closure at most once. *)
Lemma GetHttpClient_constructed (g : Globals) :
  constructed (fst (GetHttpClient g)) =
  if decide (client g = None /\ once g = false) then S (constructed g)
  else constructed g.
Proof.
  unfold GetHttpClient, once_Do.
  destruct (client g) eqn:Hc, (once g) eqn:Hd;
    destruct (decide _) as [H|H]; simpl; try reflexivity;
    first [ by destruct H | exfalso; apply H; by split ].
Qed.

(** ** Override and lazy initialisation *)

(** C7. Once [SetHttpClient c] has stored a client [c], every following
    [GetHttpClient] returns exactly [c] and leaves the package variables as
    they are: the guard [once] is not touched and nothing is constructed.
    This holds from any state [g0], so whether or not the provider was
    used (or overridden) before. *)
Theorem SetHttpClient_then_GetHttpClient (g0 : Globals) (c : ClientRef) (k : nat) :
  run (replicate k CallGet) (SetHttpClient (Some c) g0)
  = (SetHttpClient (Some c) g0, replicate k (Some c)).
Proof.
  induction k as [|k IH]; [done|]. cbn [replicate run].
  by rewrite (GetHttpClient_stored (SetHttpClient (Some c) g0) c eq_refl), IH.
Qed.

(** C10, as stated, fails: a [GetHttpClient] served by an overriding client
    does not consume the guard, so a later [SetHttpClient(nil)] is followed
    by a [GetHttpClient] that constructs the pooled client and returns it. *)
Lemma SetHttpClient_nil_after_override_reconstructs :
  let calls := [CallSet (Some (Custom 0)); CallGet; CallSet None; CallGet] in
  In CallGet (take 2 calls) /\
  (run calls initial).2 = [Some (Custom 0); Some (Pooled 0)] /\
  constructed (run calls initial).1 = 1%nat.
Proof. simpl. split; [by right; left|done]. Qed.

(** C10, amended. When a [GetHttpClient] has run while no client was
    stored (so the guard is consumed), then after any further calls and a
    [SetHttpClient(nil)], every following [GetHttpClient] returns nil and
    constructs nothing: the state no longer changes. *)
Theorem SetHttpClient_nil_after_lazy_init (g0 : Globals) (mid : list Call) (k : nat) :
  client g0 = None ->
  let g := (run (CallGet :: mid ++ [CallSet None]) g0).1 in
  run (replicate k CallGet) g = (g, replicate k None).
Proof.
  intros Hc g. apply gets_consumed.
  - subst g. simpl. destruct (GetHttpClient g0) as [g1 r].
    rewrite run_app. simpl.
    by destruct (run mid g1).
  - subst g. simpl.
    pose proof (GetHttpClient_consumes g0 Hc) as Hd.
    destruct (GetHttpClient g0) as [g1 r]. simpl in Hd.
    rewrite run_app. simpl.
    pose proof (run_done_mono mid g1 Hd) as Hd'.
    by destruct (run mid g1).
Qed.

Lemma SetHttpClient_nil_after_lazy_init_witness :
  let g := (run (CallGet :: [CallSet (Some (Custom 7))] ++ [CallSet None]) initial).1 in
  run (replicate 2 CallGet) g = (g, replicate 2 None).
Proof.
  apply (SetHttpClient_nil_after_lazy_init initial [CallSet (Some (Custom 7))] 2).
  reflexivity.
Defined.

End Provider.

(* ===================================================================== *)
(** * [GetHttpClient] under concurrent callers *)
(* ===================================================================== *)

(** Goroutines interleave at the granularity of the shared accesses of
    [GetHttpClient] and of [sync.Once.Do] (fast-path load of the flag,
    [Lock], second load, the closure, the deferred store of the flag, the
    deferred [Unlock]).  Each access is one atomic step on one shared
    state, the reads and writes of [client] included; the mutex of [once]
    records its holder. *)
Module Concurrent.
Import Provider.

Inductive pc :=
  | AtCheck                          (* if client != nil *)
  | AtOnce                           (* once.Do: load of the flag *)
  | AtLock                           (* doSlow: o.m.Lock() *)
  | AtRecheck                        (* doSlow: second load of the flag *)
  | AtConstruct                      (* the closure: client = &http.Client{...} *)
  | AtStore                          (* deferred o.done.Store(1) *)
  | AtUnlock                         (* deferred o.m.Unlock() *)
  | AtReturn                         (* return client *)
  | Returned (r : option ClientRef).

Record Config := mkConfig {
  vars : Globals;
  owner : option nat;
  threads : list pc;
}.

(** Every caller starts at the top of [GetHttpClient]; no [SetHttpClient]
    has happened. *)
Definition init (n : nat) : Config := mkConfig initial None (replicate n AtCheck).

(** One atomic action of goroutine [i]; [None] when it is blocked on the
    mutex or has returned. *)
Definition thread_step (i : nat) (g : Globals) (m : option nat) (p : pc)
  : option (Globals * option nat * pc) :=
  match p with
  | AtCheck =>
      match client g with
      | Some c => Some (g, m, Returned (Some c))
      | None => Some (g, m, AtOnce)
      end
  | AtOnce => Some (g, m, if once g then AtReturn else AtLock)
  | AtLock =>
      match m with
      | None => Some (g, Some i, AtRecheck)
      | Some _ => None
      end
  | AtRecheck => Some (g, m, if once g then AtUnlock else AtConstruct)
  | AtConstruct => Some (construct g, m, AtStore)
  | AtStore => Some (mkGlobals (client g) true (constructed g), m, AtUnlock)
  | AtUnlock => Some (g, None, AtReturn)
  | AtReturn => Some (g, m, Returned (client g))
  | Returned _ => None
  end.

Definition step_at (i : nat) (c : Config) : option Config :=
  match threads c !! i with
  | None => None
  | Some p =>
      match thread_step i (vars c) (owner c) p with
      | None => None
      | Some (g, m, p') => Some (mkConfig g m (<[i := p']> (threads c)))
      end
  end.

Definition step (c c' : Config) : Prop := exists i, step_at i c = Some c'.

(** Running a schedule (the goroutine chosen at each step). *)
Fixpoint exec (schedule : list nat) (c : Config) : option Config :=
  match schedule with
  | [] => Some c
  | i :: rest =>
      match step_at i c with
      | None => None
      | Some c' => exec rest c'
      end
  end.

(** The program points at which a goroutine holds the mutex of [once]. *)
Definition holds (p : pc) : bool :=
  match p with
  | AtRecheck | AtConstruct | AtStore | AtUnlock => true
  | _ => false
  end.

Definition is_returned (p : pc) : bool :=
  match p with Returned _ => true | _ => false end.

(** What goroutine [i] may rely on at program point [p]. *)
Definition thread_ok (g : Globals) (m : option nat) (i : nat) (p : pc) : Prop :=
  match p with
  | AtCheck | AtOnce | AtLock => True
  | AtRecheck => m = Some i
  | AtConstruct => m = Some i /\ constructed g = 0%nat
  | AtStore => m = Some i /\ constructed g = 1%nat
  | AtUnlock => m = Some i /\ once g = true
  | AtReturn => once g = true
  | Returned r => r = Some (Pooled 0) /\ constructed g = 1%nat
  end.

Record inv (c : Config) : Prop := mkInv {
  inv_vars :
    (client (vars c) = None /\ constructed (vars c) = 0%nat /\ once (vars c) = false) \/
    (client (vars c) = Some (Pooled 0) /\ constructed (vars c) = 1%nat /\
     (once (vars c) = true \/
      exists j, owner c = Some j /\ threads c !! j = Some AtStore));
  inv_threads :
    forall i p, threads c !! i = Some p -> thread_ok (vars c) (owner c) i p;
  inv_owner :
    forall j, owner c = Some j -> exists p, threads c !! j = Some p /\ holds p = true;
}.

(** Upper bound on the actions a goroutine at [p] can still take. *)
Definition fuel (p : pc) : nat :=
  match p with
  | AtCheck => 8
  | AtOnce => 7
  | AtLock => 6
  | AtRecheck => 5
  | AtConstruct => 4
  | AtStore => 3
  | AtUnlock => 2
  | AtReturn => 1
  | Returned _ => 0
  end.

Definition weight (c : Config) : nat := sum_list (fuel <$> threads c).

(** Two callers that both find [client] nil and race for the guard. *)
Definition race : list nat := [0; 1; 0; 1; 0; 0; 0; 0; 0; 1; 1; 1; 1; 0]%nat.

(** The state that schedule [race] ends in. *)
Definition raced : Config :=
  mkConfig (mkGlobals (Some (Pooled 0)) true 1) None
           [Returned (Some (Pooled 0)); Returned (Some (Pooled 0))].

(** ** The invariant holds along every run *)

Lemma inv_init (n : nat) : inv (init n).
Proof.
  split; simpl.
  - left. done.
  - intros i p H. apply lookup_replicate in H as [-> _]. exact I.
  - intros j H. discriminate.
Qed.

Lemma lookup_insert_thread (ts : list pc) (i k : nat) (p p' q : pc) :
  ts !! i = Some p ->
  <[i := p']> ts !! k = Some q ->
  (k = i /\ q = p') \/ (k <> i /\ ts !! k = Some q).
Proof.
  intros Hi Hk. destruct (decide (k = i)) as [->|Hne].
  - left. split; [done|].
    rewrite list_lookup_insert_eq in Hk by (by eapply lookup_lt_Some).
    congruence.
  - right. split; [done|]. by rewrite list_lookup_insert_ne in Hk.
Qed.

Lemma lookup_insert_self (ts : list pc) (i : nat) (p p' : pc) :
  ts !! i = Some p -> <[i := p']> ts !! i = Some p'.
Proof. intros Hi. apply list_lookup_insert_eq. by eapply lookup_lt_Some. Qed.

(** Every atomic action of every goroutine preserves the invariant. *)
Lemma step_at_inv (i : nat) (c c' : Config) :
  inv c -> step_at i c = Some c' -> inv c'.
Proof.
  intros [Hv Ht Ho] Hstep. destruct c as [[cl dn n] m ts]; simpl in *.
  unfold step_at in Hstep; simpl in Hstep.
  destruct (ts !! i) as [p|] eqn:Hi; [|done].
  pose proof (Ht i p Hi) as Hok.
  assert (Hown : forall q, m = Some i -> ts !! i = Some q -> holds q = true).
  { intros q Hm Hq. destruct (Ho i Hm) as (q' & Hq' & Hh). congruence. }
  specialize (Hown p).
  destruct p; simpl in *;
    [ destruct cl | destruct dn | destruct m | destruct dn | | | | | ];
    simplify_eq; (split; simpl).
  (* the other goroutines, then the owner of the mutex *)
  all: try (intros k q Hk;
       apply (lookup_insert_thread _ _ _ _ _ _ Hi) in Hk as [[-> ->]|[Hne Hk]];
       [ simpl | specialize (Ht k q Hk); destruct q; simpl in * ]; naive_solver).
  all: try (intros j Hj; destruct (decide (j = i)) as [->|Hne];
       [ rewrite (lookup_insert_self _ _ _ _ Hi); naive_solver
       | rewrite list_lookup_insert_ne by done; naive_solver ]).
  (* the shared variables *)
  all: destruct Hv as [(?&?&?)|(?&?&[?|(j&Hj&Hjs)])]; destruct_and?; simplify_eq;
    try (left; done); try (right; split_and?; try done; left; done).
  all: try (right; split_and?; try done; right; exists j; split; [done|];
            rewrite list_lookup_insert_ne; [done|intros ->; congruence]).
  all: try (right; split_and?; try done; right; exists i; split; [done|];
            by rewrite (lookup_insert_self _ _ _ _ Hi)).
Qed.

Lemma step_inv (c c' : Config) : inv c -> step c c' -> inv c'.
Proof. intros Hinv [i Hi]. by eapply step_at_inv. Qed.

Lemma reachable_inv (n : nat) (c : Config) : rtc step (init n) c -> inv c.
Proof.
  revert c. apply rtc_ind_r.
  - apply inv_init.
  - intros c c' _ Hs IH. by eapply step_inv.
Qed.

Lemma step_at_length (i : nat) (c c' : Config) :
  step_at i c = Some c' -> length (threads c') = length (threads c).
Proof.
  unfold step_at. intros H.
  destruct (threads c !! i) as [p|]; [|done].
  destruct (thread_step i (vars c) (owner c) p) as [[[g m] p']|]; [|done].
  simplify_eq. simpl. apply length_insert.
Qed.

Lemma reachable_length (n : nat) (c : Config) :
  rtc step (init n) c -> length (threads c) = n.
Proof.
  revert c. apply rtc_ind_r.
  - simpl. apply length_replicate.
  - intros c c' _ [i Hi] IH. by rewrite (step_at_length _ _ _ Hi).
Qed.

(** A schedule that runs is a path of the step relation. *)
Lemma exec_nsteps (schedule : list nat) (c c' : Config) :
  exec schedule c = Some c' -> nsteps step (length schedule) c c'.
Proof.
  revert c. induction schedule as [|i rest IH]; intros c H; simpl in H.
  - simplify_eq. apply nsteps_O.
  - destruct (step_at i c) as [c1|] eqn:Hs; [|done].
    eapply nsteps_l; [by exists i|by apply IH].
Qed.

(** No deadlock: while some caller has not returned, some goroutine can
    take a step (the holder of the mutex if there is one). *)
Lemma inv_progress (c : Config) (i : nat) (p : pc) :
  inv c -> threads c !! i = Some p -> is_returned p = false ->
  exists c', step c c'.
Proof.
  intros [Hv Ht Ho] Hi Hp. destruct (owner c) as [j|] eqn:Hm.
  - destruct (Ho j eq_refl) as (q & Hq & Hh).
    assert (exists r, thread_step j (vars c) (owner c) q = Some r) as [[[g m] q'] Hr].
    { destruct q; simpl in *; try done; eauto. }
    eexists. exists j. unfold step_at. by rewrite Hq, Hr.
  - assert (exists r, thread_step i (vars c) (owner c) p = Some r) as [[[g m] q'] Hr].
    { rewrite Hm. destruct p; simpl in *; try done; eauto.
      destruct (client (vars c)); eauto. }
    eexists. exists i. unfold step_at. by rewrite Hi, Hr.
Qed.

Lemma sum_list_fuel_insert (ts : list pc) (i : nat) (p p' : pc) :
  ts !! i = Some p ->
  (sum_list (fuel <$> <[i := p']> ts) + fuel p = sum_list (fuel <$> ts) + fuel p')%nat.
Proof.
  revert i. induction ts as [|q ts IH]; intros [|i] H; csimpl in *; try done.
  - simplify_eq. lia.
  - specialize (IH i H). lia.
Qed.

(** Every action strictly decreases the weight: a run of [n] callers has
    at most [8 * n] steps, whatever the schedule. *)
Lemma step_weight (c c' : Config) : step c c' -> (weight c' < weight c)%nat.
Proof.
  intros [i H]. unfold step_at in H.
  destruct (threads c !! i) as [p|] eqn:Hi; [|done].
  destruct (thread_step i (vars c) (owner c) p) as [[[g m] p']|] eqn:Hs; [|done].
  simplify_eq. unfold weight. cbn [threads].
  pose proof (sum_list_fuel_insert _ _ _ p' Hi) as Hsum.
  assert (fuel p' < fuel p)%nat; [|lia].
  clear Hsum Hi.
  destruct p; simpl in Hs;
    repeat match type of Hs with
           | context [match ?x with _ => _ end] => destruct x
           end; simplify_eq; simpl; lia.
Qed.

Lemma nsteps_weight (k : nat) (c c' : Config) :
  nsteps step k c c' -> (k + weight c' <= weight c)%nat.
Proof.
  induction 1 as [|k c c1 c' Hs _ IH]; [lia|].
  apply step_weight in Hs. lia.
Qed.

Lemma weight_init (n : nat) : weight (init n) = (8 * n)%nat.
Proof.
  unfold weight, init. cbn [threads]. induction n as [|n IH]; csimpl; [done|].
  rewrite IH. lia.
Qed.

Lemma run_bounded (n k : nat) (c : Config) :
  nsteps step k (init n) c -> (k <= 8 * n)%nat.
Proof. intros H. apply nsteps_weight in H. rewrite weight_init in H. lia. Qed.

(** C9. From a fresh process and with no [SetHttpClient], whatever the
    number [n] of concurrent callers and whatever the interleaving, after
    any number [k] of steps: [k] is at most [8 * n] (every run ends); the
    closure of [once.Do] has run at most once; every caller that has
    returned has received the one pooled client, which has then been
    constructed exactly once; and when no goroutine can move any more, all
    [n] callers have returned it. *)
Theorem GetHttpClient_concurrent_once (n k : nat) (c : Config) :
  nsteps step k (init n) c ->
  (k <= 8 * n)%nat /\
  (constructed (vars c) <= 1)%nat /\
  (forall i r, threads c !! i = Some (Returned r) ->
     r = Some (Pooled 0) /\ constructed (vars c) = 1%nat) /\
  ((forall c', ~ step c c') ->
     forall i, (i < n)%nat -> threads c !! i = Some (Returned (Some (Pooled 0)))).
Proof.
  intros Hrun.
  assert (Hreach : rtc step (init n) c) by (by eapply rtc_nsteps_2).
  pose proof (reachable_inv n c Hreach) as Hinv.
  pose proof (reachable_length n c Hreach) as Hlen.
  split_and!.
  - by eapply run_bounded.
  - destruct (inv_vars c Hinv) as [(_ & -> & _)|(_ & -> & _)]; lia.
  - intros i r Hi. exact (inv_threads c Hinv i _ Hi).
  - intros Hstuck i Hi.
    destruct (lookup_lt_is_Some_2 (threads c) i) as [p Hp]; [lia|].
    destruct (is_returned p) eqn:Hret.
    + destruct p; try done.
      destruct (inv_threads c Hinv i _ Hp) as [-> _]. done.
    + destruct (inv_progress c i p Hinv Hp Hret) as [c' Hc'].
      by destruct (Hstuck c').
Qed.

Lemma GetHttpClient_concurrent_once_witness :
  (length race <= 8 * 2)%nat /\
  (constructed (vars raced) <= 1)%nat /\
  (forall i r, threads raced !! i = Some (Returned r) ->
     r = Some (Pooled 0) /\ constructed (vars raced) = 1%nat) /\
  ((forall c', ~ step raced c') ->
     forall i, (i < 2)%nat -> threads raced !! i = Some (Returned (Some (Pooled 0)))).
Proof.
  apply (GetHttpClient_concurrent_once 2 (length race) raced).
  apply (exec_nsteps race). reflexivity.
Defined.

End Concurrent.

(* ===================================================================== *)
(** * The request pipeline *)
(* ===================================================================== *)

Module Pipeline.
Import Provider.

(** ** Values the package handles *)

(** Go [error] values that are not nil: the ones this package creates with
    [errors.New], and the ones handed back by [net/url], [net/http] and
    the transport, of which only the identity matters here. *)
Inductive goerror :=
  | errors_New (msg : string)
  | libError (origin : string).

(** [context.Context] values: [time.Duration] is a signed 64-bit count of
    nanoseconds, kept as a [Z]; the package only stores and compares
    durations, so no arithmetic can wrap. *)
Inductive Context :=
  | Background
  | Scope (id : nat)
  | WithTimeoutCtx (parent : Context) (timeout : Z).

Definition Millisecond : Z := 1000000.
Definition Second : Z := 1000 * Millisecond.

(** Values of the logger capability [Interface]: the package-level
    [Default] logger, or one supplied by the caller. *)
Inductive Interface :=
  | Default
  | Logger (id : nat).

(** The methods of [Interface] that emit. *)
Inductive LogMethod := Debug | Info | Warn | Error.

#[global] Instance LogMethod_eq_dec : EqDecision LogMethod.
Proof. solve_decision. Defined.

(** An argument of the variadic [...interface{}] tail of a log call. *)
Inductive any :=
  | AString (s : string)
  | ABytes (b : list Byte.byte)
  | AError (e : option goerror)
  | ADuration (d : Z).

(** An [*http.Request].  [Header] is an [http.Header]: canonical key to
    the values added under it, in order.  [URL] is the string given to
    [http.NewRequest]; what [url.Parse] makes of it (scheme in lower
    case, path escaped) is not modelled. *)
Record HttpRequest := mkRequest {
  Method : string;
  URL : string;
  Body : list Byte.byte;
  Header : gmap string (list string);
  Ctx : Context;
}.

(** A response body is a stream: [content] is what the peer sent, and a
    [failure] [(n, e)] makes reading fail with [e] after [n] bytes. *)
Record ReadCloser := mkBody {
  content : list Byte.byte;
  failure : option (nat * goerror);
}.

Definition io_ReadAll (r : ReadCloser) : list Byte.byte * option goerror :=
  match failure r with
  | None => (content r, None)
  | Some (n, e) => (take n (content r), Some e)
  end.

Record Response := mkResponse {
  StatusCode : Z;
  RespBody : ReadCloser;
}.

Definition StatusOK : Z := 200.

(** What one invocation observes of the outside: the URL parser, the
    transport behind [client.Do], the clock, and the order in which
    [range] walks the header map (Go leaves it unspecified). *)
Record World := mkWorld {
  url_Parse : string -> option goerror;
  client_Do : ClientRef -> HttpRequest -> Response + goerror;
  time_Since : Z;
  range : gmap string string -> list (string * string);
  range_perm : forall m, range m ≡ₚ map_to_list m;
}.

(** What an invocation does to the outside, in order. *)
Inductive Event :=
  | EvDo (c : ClientRef) (req : HttpRequest)
  | EvLog (l : Interface) (m : LogMethod) (ctx : Context) (msg : string)
          (args : list any)
  | EvCloseRespBody
  | EvCloseReqBody.

(** ** Header keys *)

(** The token bytes of RFC 7230, as [net/textproto] and [net/http] test
    them. *)
Definition isTokenByte (c : ascii) : bool :=
  let n := N_of_ascii c in
  ((48 <=? n) && (n <=? 57) || (65 <=? n) && (n <=? 90) ||
   (97 <=? n) && (n <=? 122) ||
   bool_decide (n ∈ [33; 35; 36; 37; 38; 39; 42; 43; 45; 46; 94; 95; 96; 124; 126]))%N.

Fixpoint allToken (s : string) : bool :=
  match s with
  | EmptyString => true
  | String c s' => isTokenByte c && allToken s'
  end.

Definition toUpper (c : ascii) : ascii :=
  let n := N_of_ascii c in
  if ((97 <=? n) && (n <=? 122))%N then ascii_of_N (n - 32) else c.

Definition toLower (c : ascii) : ascii :=
  let n := N_of_ascii c in
  if ((65 <=? n) && (n <=? 90))%N then ascii_of_N (n + 32) else c.

Fixpoint canonicalize (upper : bool) (s : string) : string :=
  match s with
  | EmptyString => EmptyString
  | String c s' =>
      let c' := if upper then toUpper c else toLower c in
      String c' (canonicalize (bool_decide (c' = "-"%char)) s')
  end.

(** [textproto.CanonicalMIMEHeaderKey]: first letter and letters after a
    hyphen in upper case, the rest in lower case; a key with a byte that
    is not a token byte is left as it is. *)
Definition CanonicalMIMEHeaderKey (s : string) : string :=
  if allToken s then canonicalize true s else s.

(** [h.Add(key, value)]: append under the canonical key. *)
Definition Header_Add (key value : string) (h : gmap string (list string))
  : gmap string (list string) :=
  let k := CanonicalMIMEHeaderKey key in
  <[k := h !!! k ++ [value]]> h.

(** ** Options *)

(** The builder state of one invocation.  A [[]byte] is the list of its
    bytes: the nil slice and the empty slice are both [[]]. *)
Record requestOption := mkOption {
  ctx : Context;
  timeout : Z;
  data : list Byte.byte;
  headers : gmap string string;
  logger : Interface;
  slowThreshold : Z;
}.

(** [optionFunc]: a mutation of the [*requestOption] it is given, and an
    error or nil. *)
Definition Option := requestOption -> requestOption * option goerror.

Definition defaultRequestOptions : requestOption :=
  {| ctx := Background;
     timeout := 5 * Second;
     data := [];
     headers := ∅;
     logger := Default;
     slowThreshold := 0 |}.

Definition WithContext (c : Context) : Option := fun opts =>
  (mkOption c (timeout opts) (data opts) (headers opts) (logger opts)
            (slowThreshold opts), None).

Definition WithTimeout (t : Z) : Option := fun opts =>
  (mkOption (ctx opts) t (data opts) (headers opts) (logger opts)
            (slowThreshold opts), None).

(** [for k, v := range headers { opts.headers[k] = v }]: the keys of a
    map are distinct, so the order of the walk does not show. *)
Definition WithHeaders (hs : gmap string string) : Option := fun opts =>
  (mkOption (ctx opts) (timeout opts) (data opts)
            (map_fold (fun k v acc => <[k := v]> acc) (headers opts) hs)
            (logger opts) (slowThreshold opts), None).

Definition WithData (d : list Byte.byte) : Option := fun opts =>
  (mkOption (ctx opts) (timeout opts) d (headers opts) (logger opts)
            (slowThreshold opts), None).

Definition WithLogger (l : Interface) : Option := fun opts =>
  (mkOption (ctx opts) (timeout opts) (data opts) (headers opts) l
            (slowThreshold opts), None).

Definition WithSlowThreshold (threshold : Z) : Option := fun opts =>
  (mkOption (ctx opts) (timeout opts) (data opts) (headers opts) (logger opts)
            threshold, None).

(** The loop of [Request] over [options]: stop at the first error. *)
Fixpoint applyOptions (options : list Option) (reqOpts : requestOption)
  : requestOption * option goerror :=
  match options with
  | [] => (reqOpts, None)
  | opt :: rest =>
      match opt reqOpts with
      | (reqOpts', Some e) => (reqOpts', Some e)
      | (reqOpts', None) => applyOptions rest reqOpts'
      end
  end.

(** ** Building and sending the request *)

(** [validMethod] of [net/http]: not empty, token bytes only. *)
Definition validMethod (method : string) : bool :=
  negb (bool_decide (method = "")) && allToken method.

(** [http.NewRequest(method, url, bytes.NewReader(body))]: an empty method
    means GET; the method and the URL are checked; the new request has no
    header and the background context. *)
Definition http_NewRequest (w : World) (method url : string) (body : list Byte.byte)
  : HttpRequest + goerror :=
  let method := if bool_decide (method = "") then "GET" else method in
  if negb (validMethod method) then inr (libError "net/http: invalid method")
  else
    match url_Parse w url with
    | Some e => inr e
    | None => inl (mkRequest method url body ∅ Background)
    end.

(** [for key, value := range reqOpts.headers { req.Header.Add(key, value) }]
    over the visiting order [kvs]. *)
Definition addHeaders (kvs : list (string * string)) (h : gmap string (list string))
  : gmap string (list string) :=
  foldl (fun acc kv => Header_Add kv.1 kv.2 acc) h kvs.

(** What [Request] hands back: its three named results, or a panic. *)
Inductive Outcome :=
  | Return (httpStatusCode : Z) (respBody : list Byte.byte) (err : option goerror)
  | Panic.

Record Result := mkResult {
  globals : Globals;
  trace : list Event;
  outcome : Outcome;
}.

(** The deferred closure of [Request]: one call of [Warn] or of [Debug] on
    the resolved logger, with the final [respBody] and [err]. *)
Definition logCall (reqOpts : requestOption) (method url : string)
    (respBody : list Byte.byte) (err : option goerror) (dur : Z) : Event :=
  if (0 <? slowThreshold reqOpts) && (slowThreshold reqOpts <=? dur) then
    EvLog (logger reqOpts) Warn (ctx reqOpts) "HTTP_REQUEST_SLOW_LOG"
      [AString "method"; AString method; AString "url"; AString url;
       AString "body"; ABytes (data reqOpts); AString "reply"; ABytes respBody;
       AString "err"; AError err; AString "dur/ms"; ADuration dur]
  else
    EvLog (logger reqOpts) Debug (ctx reqOpts) "HTTP_REQUEST_DEBUG_LOG"
      [AString "method"; AString method; AString "url"; AString url;
       AString "body"; AString (String.string_of_list_byte (data reqOpts));
       AString "reply"; AString (String.string_of_list_byte respBody);
       AString "err"; AError err; AString "dur/ms"; ADuration dur].

(** [errors.New(fmt.Sprintf("non 200 response, response code: %d", code))] *)
Definition non200 (code : Z) : goerror :=
  errors_New ("non 200 response, response code: " +:+ pretty code).

(** [Request]: the named results start at [0], [nil], [nil], and a bare
    [return] hands back their current values.  The deferred calls run at
    the return in the reverse order of their registration: the log
    closure (registered only once [client.Do] has answered), then
    [resp.Body.Close], then [req.Body.Close].  [Do] on the nil client
    panics. *)
Definition Request (w : World) (g : Globals) (method url : string)
    (options : list Option) : Result :=
  match applyOptions options defaultRequestOptions with
  | (_, Some e) => mkResult g [] (Return 0 [] (Some e))
  | (reqOpts, None) =>
      match http_NewRequest w method url (data reqOpts) with
      | inr e => mkResult g [] (Return 0 [] (Some e))
      | inl req =>
          let reqOpts :=
            mkOption (WithTimeoutCtx (ctx reqOpts) (timeout reqOpts))
                     (timeout reqOpts) (data reqOpts) (headers reqOpts)
                     (logger reqOpts) (slowThreshold reqOpts) in
          let req := mkRequest (Method req) (URL req) (Body req) (Header req)
                               (ctx reqOpts) in
          let req :=
            if bool_decide (size (headers reqOpts) ≠ 0%nat) then
              mkRequest (Method req) (URL req) (Body req)
                        (addHeaders (range w (headers reqOpts)) (Header req))
                        (Ctx req)
            else req in
          let '(g', client) := GetHttpClient g in
          match client with
          | None => mkResult g' [EvCloseReqBody] Panic
          | Some c =>
              match client_Do w c req with
              | inr e =>
                  mkResult g' [EvDo c req; EvCloseReqBody] (Return 0 [] (Some e))
              | inl resp =>
                  let dur := time_Since w in
                  let httpStatusCode := StatusCode resp in
                  if bool_decide (httpStatusCode ≠ StatusOK) then
                    let err := Some (non200 httpStatusCode) in
                    mkResult g'
                      [EvDo c req; logCall reqOpts method url [] err dur;
                       EvCloseRespBody; EvCloseReqBody]
                      (Return httpStatusCode [] err)
                  else
                    let respBody := (io_ReadAll (RespBody resp)).1 in
                    mkResult g'
                      [EvDo c req; logCall reqOpts method url respBody None dur;
                       EvCloseRespBody; EvCloseReqBody]
                      (Return httpStatusCode respBody None)
              end
          end
      end
  end.

Definition Get (w : World) (g : Globals) (c : Context) (url : string)
    (options : list Option) : Result :=
  Request w g "GET" url (options ++ [WithContext c]).

Definition defaultHeader : gmap string string :=
  {[ "Content-Type" := "application/json" ]}.

Definition Post (w : World) (g : Globals) (c : Context) (url : string)
    (d : list Byte.byte) (options : list Option) : Result :=
  Request w g "POST" url
    ([WithHeaders defaultHeader; WithData d; WithContext c] ++ options).

(** ** The paths through [Request] *)

(** The request as it stands when it is handed to [client.Do]. *)
Definition outgoing (w : World) (o : requestOption) (req0 : HttpRequest) : HttpRequest :=
  mkRequest (Method req0) (URL req0) (Body req0)
    (if bool_decide (size (headers o) ≠ 0%nat)
     then addHeaders (range w (headers o)) (Header req0) else Header req0)
    (WithTimeoutCtx (ctx o) (timeout o)).

(** The options as [Request] resolves them from the defaults. *)
Definition resolve (options : list Option) : requestOption :=
  (applyOptions options defaultRequestOptions).1.

(** The options once [reqOpts.ctx] has been replaced by the scope bounded
    by the timeout: what the deferred log call reads. *)
Definition bounded (o : requestOption) : requestOption :=
  mkOption (WithTimeoutCtx (ctx o) (timeout o)) (timeout o) (data o) (headers o)
           (logger o) (slowThreshold o).

(** The six ways through [Request], each with the result it produces. *)
Inductive Path (w : World) (g : Globals) (method url : string)
    (options : list Option) : Result -> Prop :=
  | OptionFailed (o : requestOption) (e : goerror) :
      applyOptions options defaultRequestOptions = (o, Some e) ->
      Path w g method url options (mkResult g [] (Return 0 [] (Some e)))
  | ConstructFailed (e : goerror) :
      (applyOptions options defaultRequestOptions).2 = None ->
      http_NewRequest w method url (data (resolve options)) = inr e ->
      Path w g method url options (mkResult g [] (Return 0 [] (Some e)))
  | NoClient (req0 : HttpRequest) (g' : Globals) :
      (applyOptions options defaultRequestOptions).2 = None ->
      http_NewRequest w method url (data (resolve options)) = inl req0 ->
      GetHttpClient g = (g', None) ->
      Path w g method url options (mkResult g' [EvCloseReqBody] Panic)
  | DispatchFailed (req0 : HttpRequest) (g' : Globals) (c : ClientRef) (e : goerror) :
      (applyOptions options defaultRequestOptions).2 = None ->
      http_NewRequest w method url (data (resolve options)) = inl req0 ->
      GetHttpClient g = (g', Some c) ->
      client_Do w c (outgoing w (resolve options) req0) = inr e ->
      Path w g method url options
        (mkResult g' [EvDo c (outgoing w (resolve options) req0); EvCloseReqBody]
                  (Return 0 [] (Some e)))
  | Non200 (req0 : HttpRequest) (g' : Globals) (c : ClientRef) (resp : Response) :
      (applyOptions options defaultRequestOptions).2 = None ->
      http_NewRequest w method url (data (resolve options)) = inl req0 ->
      GetHttpClient g = (g', Some c) ->
      client_Do w c (outgoing w (resolve options) req0) = inl resp ->
      StatusCode resp <> StatusOK ->
      Path w g method url options
        (mkResult g'
           [EvDo c (outgoing w (resolve options) req0);
            logCall (bounded (resolve options)) method url []
                    (Some (non200 (StatusCode resp))) (time_Since w);
            EvCloseRespBody; EvCloseReqBody]
           (Return (StatusCode resp) [] (Some (non200 (StatusCode resp)))))
  | Success (req0 : HttpRequest) (g' : Globals) (c : ClientRef) (resp : Response) :
      (applyOptions options defaultRequestOptions).2 = None ->
      http_NewRequest w method url (data (resolve options)) = inl req0 ->
      GetHttpClient g = (g', Some c) ->
      client_Do w c (outgoing w (resolve options) req0) = inl resp ->
      StatusCode resp = StatusOK ->
      Path w g method url options
        (mkResult g'
           [EvDo c (outgoing w (resolve options) req0);
            logCall (bounded (resolve options)) method url
                    (io_ReadAll (RespBody resp)).1 None (time_Since w);
            EvCloseRespBody; EvCloseReqBody]
           (Return (StatusCode resp) (io_ReadAll (RespBody resp)).1 None)).

(** ** Observations on a trace *)

Definition log_calls (t : list Event) : list LogMethod :=
  omap (fun e => match e with EvLog _ m _ _ _ => Some m | _ => None end) t.

Definition log_tags (t : list Event) : list string :=
  omap (fun e => match e with EvLog _ _ _ msg _ => Some msg | _ => None end) t.

Definition network_calls (t : list Event) : list (ClientRef * HttpRequest) :=
  omap (fun e => match e with EvDo c r => Some (c, r) | _ => None end) t.

Definition sent_headers (key : string) (t : list Event) : list (list string) :=
  (fun cr => Header cr.2 !!! key) <$> network_calls t.

Definition sent_contexts (t : list Event) : list Context :=
  (fun cr => Ctx cr.2) <$> network_calls t.

(** A caller option that succeeds and leaves the headers and the body
    alone (as [WithTimeout], [WithContext], [WithLogger] and
    [WithSlowThreshold] do). *)
Definition untouched (opt : Option) : Prop :=
  forall o, (opt o).2 = None /\ headers (opt o).1 = headers o /\ data (opt o).1 = data o.

(** An option that leaves the value of the header key [k] as it finds
    it (every option but a [WithHeaders] whose argument has the key). *)
Definition keeps_key (k : string) (opt : Option) : Prop :=
  forall o, headers (opt o).1 !! k = headers o !! k.

(** ** A concrete world, for running the pipeline *)

(** The transport answers every request with [reply] after [dur]
    nanoseconds; the only URL that does not parse is a lone colon; the
    header map is walked in the order of [map_to_list]. *)
Definition exampleWorld (reply : Response + goerror) (dur : Z) : World :=
  mkWorld
    (fun u => if bool_decide (u = ":")
              then Some (libError "parse: missing protocol scheme") else None)
    (fun _ _ => reply) dur map_to_list (fun m => Permutation_refl _).

Definition bytes (s : string) : list Byte.byte := String.list_byte_of_string s.

Definition reply (code : Z) (body : string) : Response + goerror :=
  inl (mkResponse code (mkBody (bytes body) None)).

Definition refused : Response + goerror :=
  inr (libError "dial tcp: connection refused").

(** An option whose validation fails (none of the exported ones does). *)
Definition failingOption (e : goerror) : Option := fun opts => (opts, Some e).

(** ** Options: what they resolve to *)

(** Ranging over the argument of [WithHeaders] overlays it on the headers
    resolved so far: the argument wins on the keys it has. *)
Lemma overlay_union (hs m : gmap string string) :
  map_fold (fun k v acc => <[k := v]> acc) m hs = hs ∪ m.
Proof.
  apply (map_fold_weak_ind (fun r hs' => r = hs' ∪ m)).
  - by rewrite (left_id_L ∅ (∪)).
  - intros k v hs' r _ ->. by rewrite insert_union_l.
Qed.

Lemma WithHeaders_union (hs : gmap string string) (opts : requestOption) :
  headers (WithHeaders hs opts).1 = hs ∪ headers opts.
Proof. apply overlay_union. Qed.

Lemma applyOptions_app (xs ys : list Option) (o : requestOption) :
  applyOptions (xs ++ ys) o =
  match applyOptions xs o with
  | (o', Some e) => (o', Some e)
  | (o', None) => applyOptions ys o'
  end.
Proof.
  revert o. induction xs as [|x xs IH]; intros o; simpl; [done|].
  destruct (x o) as [o' [e|]]; [done|]. apply IH.
Qed.

(** ** Header values on the outgoing request *)

Lemma Header_Add_lookup_total (key value ck : string) (h : gmap string (list string)) :
  Header_Add key value h !!! ck =
  if decide (CanonicalMIMEHeaderKey key = ck) then h !!! ck ++ [value] else h !!! ck.
Proof.
  unfold Header_Add. case_decide as Hk.
  - subst ck. by rewrite lookup_total_insert_eq.
  - by rewrite lookup_total_insert_ne.
Qed.

(** Under a canonical key the request carries, after what was there, the
    values of the entries spelled with that key, in visiting order. *)
Lemma addHeaders_lookup_total (kvs : list (string * string))
    (h : gmap string (list string)) (ck : string) :
  addHeaders kvs h !!! ck =
  h !!! ck ++ (filter (fun kv => CanonicalMIMEHeaderKey kv.1 = ck) kvs).*2.
Proof.
  unfold addHeaders. revert h.
  induction kvs as [|[k v] kvs IH]; intros h; simpl.
  - by rewrite (right_id_L [] (++)).
  - rewrite IH, Header_Add_lookup_total. simpl.
    rewrite filter_cons. simpl. case_decide; simpl; [|done].
    by rewrite <- (assoc_L (++)).
Qed.

(** When one key of the map only has a given canonical form, walking the
    map in any order visits one entry with that form. *)
Lemma range_filter_unique (w : World) (m : gmap string string) (k v : string) :
  m !! k = Some v ->
  (forall k', is_Some (m !! k') ->
     CanonicalMIMEHeaderKey k' = CanonicalMIMEHeaderKey k -> k' = k) ->
  filter (fun kv => CanonicalMIMEHeaderKey kv.1 = CanonicalMIMEHeaderKey k) (range w m)
  = [(k, v)].
Proof.
  intros Hk Huniq. apply Permutation_singleton_r.
  rewrite (range_perm w m). apply NoDup_Permutation.
  - apply NoDup_filter, NoDup_map_to_list.
  - apply NoDup_singleton.
  - intros [k' v']. rewrite list_elem_of_filter, elem_of_map_to_list,
      list_elem_of_singleton. simpl. split.
    + intros [Hc Hl]. assert (k' = k) as -> by (apply Huniq; eauto). congruence.
    + intros [= -> ->]. done.
Qed.

Lemma Request_path (w : World) (g : Globals) (method url : string)
    (options : list Option) :
  Path w g method url options (Request w g method url options).
Proof.
  unfold Request.
  destruct (applyOptions options defaultRequestOptions) as [o [e|]] eqn:Ho.
  { by eapply OptionFailed. }
  assert (Hr : resolve options = o) by (unfold resolve; by rewrite Ho).
  assert (Hn : (applyOptions options defaultRequestOptions).2 = None)
    by (by rewrite Ho).
  destruct (http_NewRequest w method url (data o)) as [req0|e] eqn:Hreq.
  2: { apply ConstructFailed; [done|]. by rewrite Hr. }
  destruct (GetHttpClient g) as [g' [c|]] eqn:Hg.
  2: { eapply NoClient; [done| |done]. by rewrite Hr. }
  cbn [ctx timeout data headers logger slowThreshold Method URL Body Header Ctx].
  fold (bounded o).
  set (req := if bool_decide (size (headers o) ≠ 0%nat) then _ else _).
  assert (req = outgoing w o req0) as ->.
  { subst req. unfold outgoing. by destruct (bool_decide _). }
  rewrite <- Hr in *.
  destruct (client_Do w c _) as [resp|e] eqn:Hdo.
  2: { by eapply DispatchFailed. }
  case_bool_decide as Hcode.
  - by eapply Non200.
  - by eapply Success.
Qed.

(** The deferred closure makes one call, [Warn] or [Debug]. *)
Lemma log_calls_responded (c : ClientRef) (req : HttpRequest) (o : requestOption)
    (method url : string) (body : list Byte.byte) (err : option goerror) (dur : Z) :
  log_calls [EvDo c req; logCall o method url body err dur;
             EvCloseRespBody; EvCloseReqBody] =
  [if (0 <? slowThreshold o) && (slowThreshold o <=? dur) then Warn else Debug].
Proof. unfold logCall. by destruct (_ && _). Qed.

Lemma log_tags_responded (c : ClientRef) (req : HttpRequest) (o : requestOption)
    (method url : string) (body : list Byte.byte) (err : option goerror) (dur : Z) :
  log_tags [EvDo c req; logCall o method url body err dur;
            EvCloseRespBody; EvCloseReqBody] =
  [if (0 <? slowThreshold o) && (slowThreshold o <=? dur)
   then "HTTP_REQUEST_SLOW_LOG" else "HTTP_REQUEST_DEBUG_LOG"].
Proof. unfold logCall. by destruct (_ && _). Qed.

Lemma network_calls_responded (c : ClientRef) (req : HttpRequest) (o : requestOption)
    (method url : string) (body : list Byte.byte) (err : option goerror) (dur : Z) :
  network_calls [EvDo c req; logCall o method url body err dur;
                 EvCloseRespBody; EvCloseReqBody] = [(c, req)].
Proof. unfold logCall. by destruct (_ && _). Qed.

Lemma slowThreshold_bounded (o : requestOption) :
  slowThreshold (bounded o) = slowThreshold o.
Proof. done. Qed.

(** Case analysis on the path of an invocation, with the observations on
    the trace computed. *)
Ltac by_path w g method url options :=
  let HP := fresh "HP" in
  pose proof (Request_path w g method url options) as HP;
  destruct HP;
  cbn [trace outcome globals];
  rewrite ?log_calls_responded, ?log_tags_responded, ?network_calls_responded,
    ?slowThreshold_bounded;
  cbn [log_calls log_tags network_calls omap list_omap].


(** A network call happens exactly when the options resolve, the request
    can be built and the provider has a client. *)
Lemma Request_network_calls (w : World) (g : Globals) (method url : string)
    (options : list Option) (c : ClientRef) (req : HttpRequest) :
  (c, req) ∈ network_calls (trace (Request w g method url options)) <->
  exists req0 g',
    (applyOptions options defaultRequestOptions).2 = None /\
    http_NewRequest w method url (data (resolve options)) = inl req0 /\
    GetHttpClient g = (g', Some c) /\
    req = outgoing w (resolve options) req0.
Proof.
  by_path w g method url options;
    rewrite ?elem_of_nil, ?list_elem_of_singleton; split;
    try done; try (intros (? & ? & ? & ? & ? & ?); congruence);
    try (intros [= -> ->]; do 2 eexists; split_and!; done).
  intros (? & ? & Hn & _). by rewrite H in Hn.
Qed.

Lemma Request_network_calls_eq (w : World) (g : Globals) (method url : string)
    (options : list Option) (req0 : HttpRequest) (cl : ClientRef) :
  (applyOptions options defaultRequestOptions).2 = None ->
  http_NewRequest w method url (data (resolve options)) = inl req0 ->
  (GetHttpClient g).2 = Some cl ->
  network_calls (trace (Request w g method url options)) =
  [(cl, outgoing w (resolve options) req0)].
Proof.
  by_path w g method url options; intros Hn Hreq Hg;
    repeat match goal with
           | H : GetHttpClient g = _ |- _ => rewrite H in Hg; simpl in Hg
           | H : applyOptions _ _ = _ |- _ => rewrite H in Hn; simpl in Hn
           end;
    congruence.
Qed.

Lemma http_NewRequest_inl (w : World) (method url : string) (body : list Byte.byte)
    (req0 : HttpRequest) :
  http_NewRequest w method url body = inl req0 ->
  req0 = mkRequest (if bool_decide (method = "") then "GET" else method) url body ∅
                   Background.
Proof.
  unfold http_NewRequest. destruct (negb _); [done|].
  destruct (url_Parse w url); [done|]. by intros [= <-].
Qed.

Lemma http_NewRequest_ok (w : World) (method url : string) (body : list Byte.byte) :
  validMethod method = true -> url_Parse w url = None ->
  http_NewRequest w method url body = inl (mkRequest method url body ∅ Background).
Proof.
  intros Hm Hu. unfold http_NewRequest.
  assert (bool_decide (method = "") = false) as ->.
  { apply bool_decide_eq_false. intros ->. done. }
  by rewrite Hm, Hu.
Qed.

(** The value sent under a key that is the only one of its canonical
    form in the resolved headers. *)
Lemma outgoing_header_unique (w : World) (o : requestOption) (req0 : HttpRequest)
    (k v : string) :
  Header req0 = ∅ ->
  headers o !! k = Some v ->
  (forall k', is_Some (headers o !! k') ->
     CanonicalMIMEHeaderKey k' = CanonicalMIMEHeaderKey k -> k' = k) ->
  Header (outgoing w o req0) !!! CanonicalMIMEHeaderKey k = [v].
Proof.
  intros H0 Hk Huniq. unfold outgoing. cbn [Header].
  rewrite bool_decide_eq_true_2.
  2: { apply map_size_non_empty_iff. intros Hm. by rewrite Hm, lookup_empty in Hk. }
  rewrite addHeaders_lookup_total, H0, lookup_total_empty.
  by rewrite (range_filter_unique w _ k v Hk Huniq).
Qed.

Lemma range_singleton (w : World) (k v : string) : range w {[k := v]} = [(k, v)].
Proof.
  apply Permutation_singleton_r. by rewrite (range_perm w), map_to_list_singleton.
Qed.

Lemma applyOptions_untouched (options : list Option) (o : requestOption) :
  Forall untouched options ->
  (applyOptions options o).2 = None /\
  headers (applyOptions options o).1 = headers o /\
  data (applyOptions options o).1 = data o.
Proof.
  intros H. revert o. induction H as [|opt options Hopt _ IH]; intros o; simpl; [done|].
  destruct (Hopt o) as (He & Hh & Hd). destruct (opt o) as [o' [e|]]; [done|].
  simpl in *. destruct (IH o') as (? & ? & ?). split_and!; congruence.
Qed.

Lemma builtin_untouched (c : Context) (t : Z) (l : Interface) (threshold : Z) :
  Forall untouched
    [WithContext c; WithTimeout t; WithLogger l; WithSlowThreshold threshold].
Proof. repeat constructor. Qed.

(** Whatever the caller passes to [Get], the scope argument is the last
    context written: it is the one the options resolve to. *)
Lemma Get_resolves_scope (options : list Option) (c : Context) :
  (applyOptions options defaultRequestOptions).2 = None ->
  (applyOptions (options ++ [WithContext c]) defaultRequestOptions).2 = None /\
  ctx (resolve (options ++ [WithContext c])) = c.
Proof.
  intros Hn. unfold resolve. rewrite applyOptions_app.
  destruct (applyOptions options defaultRequestOptions) as [o [e|]]; [done|].
  done.
Qed.

(** Options that resolve as a whole resolve part by part. *)
Lemma applyOptions_app_None (xs ys : list Option) (o : requestOption) :
  (applyOptions (xs ++ ys) o).2 = None ->
  (applyOptions xs o).2 = None /\
  applyOptions (xs ++ ys) o = applyOptions ys (applyOptions xs o).1.
Proof.
  rewrite applyOptions_app.
  by destruct (applyOptions xs o) as [o' [e|]].
Qed.

Lemma applyOptions_keeps_key (k : string) (options : list Option) (o : requestOption) :
  Forall (keeps_key k) options ->
  headers (applyOptions options o).1 !! k = headers o !! k.
Proof.
  intros H. revert o. induction H as [|opt options Hopt _ IH]; intros o; simpl; [done|].
  specialize (Hopt o). destruct (opt o) as [o' [e|]]; simpl in *; [done|].
  by rewrite IH.
Qed.

(** The exported options other than [WithHeaders] keep every key. *)
Lemma scalar_options_keep_key (k : string) (c : Context) (t : Z)
    (d : list Byte.byte) (l : Interface) (threshold : Z) :
  Forall (keeps_key k)
    [WithContext c; WithTimeout t; WithData d; WithLogger l;
     WithSlowThreshold threshold].
Proof. repeat constructor. Qed.

(* ===================================================================== *)
(** ** Logging *)
(* ===================================================================== *)

(** C1, as stated, fails: the deferred log call is registered only after
    [client.Do] has returned a response, so an invocation that stops at a
    failing option, at [http.NewRequest] or at a transport error logs
    nothing. *)
Lemma Request_early_return_no_log :
  length (log_calls (trace (Request (exampleWorld (reply 200 "ok") 10) initial
            "GET" "http://example.com"
            [failingOption (errors_New "bad option")]))) = 0%nat /\
  length (log_calls (trace (Request (exampleWorld (reply 200 "ok") 10) initial
            "GET" ":" []))) = 0%nat /\
  length (log_calls (trace (Request (exampleWorld refused 10) initial
            "GET" "http://example.com" []))) = 0%nat.
Proof. by vm_compute. Qed.

(** C1, amended. An invocation of [Request] never logs more than once and
    only through [Debug] or [Warn]; it logs exactly once when the dispatch
    returned a response (status 200 or not), and not at all when it returns
    early: option-application failure, request-construction failure,
    dispatch failure. *)
Theorem Request_log_emissions (w : World) (g : Globals) (method url : string)
    (options : list Option) :
  let r := Request w g method url options in
  ((length (log_calls (trace r)) <= 1)%nat /\
   Forall (fun m => m = Debug \/ m = Warn) (log_calls (trace r))) /\
  (length (log_calls (trace r)) = 1%nat <->
   exists c req resp,
     (c, req) ∈ network_calls (trace r) /\ client_Do w c req = inl resp) /\
  (forall e, (applyOptions options defaultRequestOptions).2 = Some e ->
     log_calls (trace r) = []) /\
  (forall e, http_NewRequest w method url (data (resolve options)) = inr e ->
     log_calls (trace r) = []) /\
  (forall c req e, (c, req) ∈ network_calls (trace r) ->
     client_Do w c req = inr e -> log_calls (trace r) = []).
Proof.
  intros r; subst r. by_path w g method url options.
  all: split_and!; try done; try (simpl; lia).
  all: try match goal with
           | |- Forall _ [_] => apply Forall_singleton; destruct (_ && _); auto
           end.
  all: try (intros; simplify_eq; congruence).
  all: try (split; [done|]; intros (?&?&?&Hin&?); set_unfold; naive_solver congruence).
  all: try (intros ??? Hin ?; set_unfold; naive_solver congruence).
  all: try (split; [intros _|done]; do 3 eexists;
            split; [by apply list_elem_of_singleton|done]).
Qed.

(** C6, as stated, fails: a threshold that is set to a negative duration is
    not zero and is below every elapsed time, yet the call is [Debug]. *)
Lemma negative_threshold_logs_debug :
  let options := [WithSlowThreshold (-1)] in
  let r := Request (exampleWorld (reply 200 "ok") 10) initial "GET"
                   "http://example.com" options in
  slowThreshold (resolve options) <> 0 /\
  slowThreshold (resolve options) <= time_Since (exampleWorld (reply 200 "ok") 10) /\
  log_calls (trace r) = [Debug].
Proof. vm_compute. split_and!; [discriminate|discriminate|reflexivity]. Qed.

(** C6, amended. When [Request] reaches the logging step (the dispatch
    returned a response): if the resolved [slowThreshold] is strictly
    positive and the elapsed duration is at least it, the one log call is
    [Warn]; otherwise (threshold zero, unset or negative, or a faster call)
    the one log call is [Debug]. *)
Theorem Request_log_level (w : World) (g : Globals) (method url : string)
    (options : list Option) (c : ClientRef) (req : HttpRequest) (resp : Response) :
  (c, req) ∈ network_calls (trace (Request w g method url options)) ->
  client_Do w c req = inl resp ->
  let slow := bool_decide (0 < slowThreshold (resolve options) /\
                           slowThreshold (resolve options) <= time_Since w) in
  log_calls (trace (Request w g method url options)) =
    [if slow then Warn else Debug] /\
  log_tags (trace (Request w g method url options)) =
    [if slow then "HTTP_REQUEST_SLOW_LOG" else "HTTP_REQUEST_DEBUG_LOG"].
Proof.
  by_path w g method url options; intros Hin Hdo;
    first [ by apply elem_of_nil in Hin
          | apply list_elem_of_singleton in Hin; injection Hin as -> ->;
            try congruence ].
  all: cbv zeta; case_bool_decide as Hc.
  all: destruct (Z.ltb_spec 0 (slowThreshold (resolve options)));
       destruct (Z.leb_spec (slowThreshold (resolve options)) (time_Since w));
       simpl; try done; lia.
Qed.

(** The slow handler of the package's own test: threshold 50ms, answer
    after 100ms. *)
Lemma Request_log_level_witness :
  let r := Request (exampleWorld (reply 200 "ok") (100 * Millisecond)) initial
                   "GET" "http://example.com"
                   [WithSlowThreshold (50 * Millisecond)] in
  log_calls (trace r) = [Warn] /\ log_tags (trace r) = ["HTTP_REQUEST_SLOW_LOG"].
Proof.
  exact (Request_log_level (exampleWorld (reply 200 "ok") (100 * Millisecond)) initial
       "GET" "http://example.com" [WithSlowThreshold (50 * Millisecond)]
       (Pooled 0)
       (mkRequest "GET" "http://example.com" [] ∅
                  (WithTimeoutCtx Background (5 * Second)))
       (mkResponse 200 (mkBody (bytes "ok") None))
       (list_elem_of_here _ _) eq_refl).
Defined.

(* ===================================================================== *)
(** ** The result triple *)
(* ===================================================================== *)

(** C4, as stated, fails: on a status other than 200 the response body is
    never read, and the body returned is nil whatever the peer sent. *)
Lemma Request_non200_drops_body :
  outcome (Request (exampleWorld (reply 404 "not found") 10) initial "GET"
                   "http://example.com" []) =
  Return 404 [] (Some (errors_New "non 200 response, response code: 404")) /\
  bytes "not found" <> [].
Proof. split; [by vm_compute|discriminate]. Qed.

(** C4, amended. For every dispatched request whose response status code
    is not 200, [Request] returns the code, a nil body, and a non-nil error
    whose message ends in the decimal rendering of the code. *)
Theorem Request_non200 (w : World) (g : Globals) (method url : string)
    (options : list Option) (c : ClientRef) (req : HttpRequest) (resp : Response) :
  (c, req) ∈ network_calls (trace (Request w g method url options)) ->
  client_Do w c req = inl resp ->
  StatusCode resp <> 200 ->
  outcome (Request w g method url options) =
    Return (StatusCode resp) []
      (Some (errors_New ("non 200 response, response code: "
                         +:+ pretty (StatusCode resp)))).
Proof.
  by_path w g method url options; intros Hin Hdo Hcode;
    first [ by apply elem_of_nil in Hin
          | apply list_elem_of_singleton in Hin; injection Hin as -> ->;
            unfold non200, StatusOK in *; congruence ].
Qed.

Lemma Request_non200_witness :
  outcome (Request (exampleWorld (reply 500 "{}") 10) initial "GET"
                   "http://example.com" []) =
  Return 500 [] (Some (errors_New "non 200 response, response code: 500")).
Proof.
  apply (Request_non200 _ _ _ _ _ (Pooled 0)
           (mkRequest "GET" "http://example.com" [] ∅
                      (WithTimeoutCtx Background (5 * Second)))
           (mkResponse 500 (mkBody (bytes "{}") None))).
  - vm_compute. apply list_elem_of_here.
  - reflexivity.
  - vm_compute. discriminate.
Defined.

(** C5. For every dispatched request whose response status code is 200,
    [Request] returns 200, the bytes drained from the response body and a
    nil error: the whole body when reading it does not fail, and what was
    read before the failure otherwise, the read error being dropped. *)
Theorem Request_200 (w : World) (g : Globals) (method url : string)
    (options : list Option) (c : ClientRef) (req : HttpRequest) (resp : Response) :
  (c, req) ∈ network_calls (trace (Request w g method url options)) ->
  client_Do w c req = inl resp ->
  StatusCode resp = 200 ->
  outcome (Request w g method url options) =
    Return 200
      (match failure (RespBody resp) with
       | None => content (RespBody resp)
       | Some (n, _) => take n (content (RespBody resp))
       end) None.
Proof.
  by_path w g method url options; intros Hin Hdo Hcode;
    first [ by apply elem_of_nil in Hin
          | apply list_elem_of_singleton in Hin; injection Hin as -> ->;
            unfold StatusOK in *; try congruence ].
  assert (resp0 = resp) as -> by congruence.
  rewrite Hcode. unfold io_ReadAll. by destruct (failure _) as [[n e]|].
Qed.

(** A body of five bytes whose reading fails after three. *)
Lemma Request_200_witness :
  outcome (Request
             (exampleWorld
                (inl (mkResponse 200
                        (mkBody (bytes "hello") (Some (3%nat, libError "unexpected EOF")))))
                10)
             initial "GET" "http://example.com" []) =
  Return 200 (bytes "hel") None.
Proof.
  apply (Request_200 _ _ _ _ _ (Pooled 0)
           (mkRequest "GET" "http://example.com" [] ∅
                      (WithTimeoutCtx Background (5 * Second)))
           (mkResponse 200
              (mkBody (bytes "hello") (Some (3%nat, libError "unexpected EOF"))))).
  - vm_compute. apply list_elem_of_here.
  - reflexivity.
  - reflexivity.
Defined.

(* ===================================================================== *)
(** ** Headers and entry points *)
(* ===================================================================== *)

(** C3, as stated, fails: the resolved headers are a map from key to one
    value, so of two [WithHeaders] that set the same key only the second
    value reaches the request. *)
Lemma WithHeaders_twice_keeps_last :
  sent_headers "X-Token"
    (trace (Request (exampleWorld (reply 200 "ok") 10) initial "GET"
              "http://example.com"
              [WithHeaders {["X-Token" := "a"]}; WithHeaders {["X-Token" := "b"]}]))
  = [["b"]].
Proof. by vm_compute. Qed.

(** Two spellings of one canonical key are two keys of the map: both
    values are added under the canonical key. *)
Example WithHeaders_two_spellings_accumulate :
  let sent :=
    sent_headers "X-Token"
      (trace (Request (exampleWorld (reply 200 "ok") 10) initial "GET"
                "http://example.com"
                [WithHeaders {["x-token" := "a"]}; WithHeaders {["X-Token" := "b"]}])) in
  sent = [["a"; "b"]] \/ sent = [["b"; "a"]].
Proof. vm_compute. first [by left | by right]. Qed.

(** C3, amended. In every [Request] invocation whose options hold two
    [WithHeaders] applications of the same key (whatever options stand
    before, between and after them, the options after them leaving that
    key alone): the first application gives the key its value, the second
    replaces it in the resolved options, and the outgoing request carries
    under that key the second value only (no other spelling of the key
    being present in the resolved headers).  Invocations through [Get]
    and [Post] are instances: [Get] appends [WithContext], which keeps
    every key, and [Post] puts its three defaults in front. *)
Theorem WithHeaders_same_key_overwrites (w : World) (g : Globals)
    (method url : string) (pre mid post : list Option)
    (h1 h2 : gmap string string) (k v1 v2 : string)
    (c : ClientRef) (req : HttpRequest) :
  h1 !! k = Some v1 ->
  h2 !! k = Some v2 ->
  Forall (keeps_key k) post ->
  (forall k',
     is_Some (headers (resolve (pre ++ WithHeaders h1 :: mid ++ WithHeaders h2 :: post))
                !! k') ->
     CanonicalMIMEHeaderKey k' = CanonicalMIMEHeaderKey k -> k' = k) ->
  (c, req) ∈ network_calls
               (trace (Request w g method url
                         (pre ++ WithHeaders h1 :: mid ++ WithHeaders h2 :: post))) ->
  headers (resolve (pre ++ [WithHeaders h1])) !! k = Some v1 /\
  headers (resolve (pre ++ WithHeaders h1 :: mid ++ WithHeaders h2 :: post)) !! k
    = Some v2 /\
  Header req !!! CanonicalMIMEHeaderKey k = [v2].
Proof.
  intros H1 H2 Hpost Huniq Hin.
  apply Request_network_calls in Hin as (req0 & g' & Hn & Hnew & _ & ->).
  apply http_NewRequest_inl in Hnew.
  assert (Hres : headers (resolve (pre ++ WithHeaders h1 :: mid ++ WithHeaders h2 :: post))
                   !! k = Some v2).
  { unfold resolve in *.
    change (pre ++ WithHeaders h1 :: mid ++ WithHeaders h2 :: post)
      with (pre ++ (WithHeaders h1 :: mid) ++ WithHeaders h2 :: post) in *.
    rewrite (assoc_L (++)) in *.
    destruct (applyOptions_app_None _ _ _ Hn) as [_ ->].
    cbn [applyOptions WithHeaders]. rewrite applyOptions_keeps_key by done.
    cbn [headers]. rewrite overlay_union. by apply lookup_union_Some_l. }
  split_and!.
  - unfold resolve in *.
    destruct (applyOptions_app_None pre _ _ Hn) as [Hpre _].
    destruct (applyOptions_app_None pre [WithHeaders h1] defaultRequestOptions)
      as [_ ->].
    { rewrite applyOptions_app.
      by destruct (applyOptions pre defaultRequestOptions) as [o' [e|]]. }
    cbn [applyOptions WithHeaders fst headers].
    rewrite overlay_union. by apply lookup_union_Some_l.
  - done.
  - apply outgoing_header_unique; try done. by subst req0.
Qed.

(** A timeout before the two applications, a body between them and a slow
    threshold after them. *)
Lemma WithHeaders_same_key_overwrites_witness :
  headers (resolve ([WithTimeout (10 * Second)] ++ [WithHeaders {["X-Token" := "a"]}]))
    !! "X-Token" = Some "a" /\
  headers (resolve ([WithTimeout (10 * Second)] ++
                    WithHeaders {["X-Token" := "a"]} :: [WithData (bytes "x")] ++
                    WithHeaders {["X-Token" := "b"]} ::
                    [WithSlowThreshold (100 * Millisecond)]))
    !! "X-Token" = Some "b" /\
  Header (mkRequest "GET" "http://example.com" (bytes "x")
            {["X-Token" := ["b"]]} (WithTimeoutCtx Background (10 * Second)))
    !!! CanonicalMIMEHeaderKey "X-Token" = ["b"].
Proof.
  apply (WithHeaders_same_key_overwrites (exampleWorld (reply 200 "ok") 10) initial
           "GET" "http://example.com"
           [WithTimeout (10 * Second)] [WithData (bytes "x")]
           [WithSlowThreshold (100 * Millisecond)]
           {["X-Token" := "a"]} {["X-Token" := "b"]}
           "X-Token" "a" "b" (Pooled 0)).
  - reflexivity.
  - reflexivity.
  - repeat constructor.
  - intros k' [v Hv] _. revert Hv.
    assert (headers (resolve ([WithTimeout (10 * Second)] ++
                      WithHeaders {["X-Token" := "a"]} :: [WithData (bytes "x")] ++
                      WithHeaders {["X-Token" := "b"]} ::
                      [WithSlowThreshold (100 * Millisecond)]))
            = {["X-Token" := "b"]}) as -> by (by vm_compute).
    by intros [<- _]%lookup_singleton_Some.
  - vm_compute. apply list_elem_of_here.
Defined.

(** C2. [Get] appends the scope option after the caller's options, so the
    scope argument wins over a caller-supplied [WithContext]: for every
    option list that resolves, the context the options resolve to is the
    scope argument.  With scope 1 and a caller option [WithContext] of
    scope 2 the request goes out under scope 1, while the pipeline with
    the scope option applied first, and [Post], send it under scope 2. *)
Theorem Get_scope_overrides_caller_context :
  (forall options c,
     (applyOptions options defaultRequestOptions).2 = None ->
     ctx (resolve (options ++ [WithContext c])) = c) /\
  let w := exampleWorld (reply 200 "ok") 10 in
  sent_contexts (trace (Get w initial (Scope 1) "http://example.com"
                            [WithContext (Scope 2)]))
    = [WithTimeoutCtx (Scope 1) (5 * Second)] /\
  sent_contexts (trace (Request w initial "GET" "http://example.com"
                            (WithContext (Scope 1) :: [WithContext (Scope 2)])))
    = [WithTimeoutCtx (Scope 2) (5 * Second)] /\
  sent_contexts (trace (Post w initial (Scope 1) "http://example.com" []
                            [WithContext (Scope 2)]))
    = [WithTimeoutCtx (Scope 2) (5 * Second)].
Proof.
  split; [|by vm_compute].
  intros options c Hn. by apply Get_resolves_scope.
Qed.

(** C8. [Post] is the pipeline with method POST and the options
    [WithHeaders] of the default header, [WithData] of the body and
    [WithContext] of the scope placed before the caller's options.  With
    no caller option the one request sent carries exactly
    [Content-Type: application/json], the body and the scope bounded by
    the default timeout; the same header and body are sent with any caller
    options that leave headers and body alone; and caller options for the
    same header key, the body and the context replace the defaults. *)
Theorem Post_defaults_before_caller_options (w : World) (g : Globals) (c : Context)
    (url : string) (d : list Byte.byte) :
  (forall options,
     Post w g c url d options =
     Request w g "POST" url
       (WithHeaders defaultHeader :: WithData d :: WithContext c :: options)) /\
  (forall cl, url_Parse w url = None -> (GetHttpClient g).2 = Some cl ->
     network_calls (trace (Post w g c url d [])) =
     [(cl, mkRequest "POST" url d {["Content-Type" := ["application/json"]]}
                     (WithTimeoutCtx c (5 * Second)))]) /\
  (forall options cl req,
     Forall untouched options ->
     (cl, req) ∈ network_calls (trace (Post w g c url d options)) ->
     Method req = "POST" /\ Body req = d /\
     Header req !!! "Content-Type" = ["application/json"]) /\
  (forall v d' c' cl req,
     (cl, req) ∈ network_calls
        (trace (Post w g c url d
                  [WithHeaders {["Content-Type" := v]}; WithData d'; WithContext c'])) ->
     Header req !!! "Content-Type" = [v] /\ Body req = d' /\
     Ctx req = WithTimeoutCtx c' (5 * Second)).
Proof.
  split_and!.
  - done.
  - intros cl Hu Hg. unfold Post. simpl app.
    rewrite (Request_network_calls_eq w g _ _ _ (mkRequest "POST" url d ∅ Background) cl);
      [|done|by apply http_NewRequest_ok|done].
    unfold outgoing, resolve, defaultHeader. simpl.
    rewrite overlay_union, (right_id_L ∅ (∪)), map_size_singleton.
    simpl. by rewrite range_singleton.
  - intros options cl req Hopts Hin. unfold Post in Hin.
    apply Request_network_calls in Hin as (req0 & g' & _ & Hnew & _ & ->).
    apply http_NewRequest_inl in Hnew. subst req0.
    unfold resolve in *. simpl.
    rewrite overlay_union, (right_id_L ∅ (∪)).
    match goal with
    | |- context [applyOptions options ?o] =>
        destruct (applyOptions_untouched options o Hopts) as (_ & Hh & Hd)
    end.
    simpl in *. split_and!; [done|done|].
    rewrite Hh. unfold defaultHeader.
    rewrite map_size_singleton. simpl. by rewrite range_singleton.
  - intros v d' c' cl req Hin. unfold Post in Hin.
    apply Request_network_calls in Hin as (req0 & g' & _ & Hnew & _ & ->).
    apply http_NewRequest_inl in Hnew. subst req0.
    unfold resolve, outgoing. simpl.
    rewrite !overlay_union, (right_id_L ∅ (∪)).
    unfold defaultHeader.
    rewrite <- insert_union_singleton_l, insert_singleton_eq, map_size_singleton.
    simpl. by rewrite range_singleton.
Qed.

Lemma Post_defaults_before_caller_options_witness :
  network_calls (trace (Post (exampleWorld (reply 200 "ok") 10) initial (Scope 1)
                          "http://example.com" (bytes "{}") [])) =
  [(Pooled 0, mkRequest "POST" "http://example.com" (bytes "{}")
                {["Content-Type" := ["application/json"]]}
                (WithTimeoutCtx (Scope 1) (5 * Second)))].
Proof.
  apply (Post_defaults_before_caller_options (exampleWorld (reply 200 "ok") 10) initial
           (Scope 1) "http://example.com" (bytes "{}")); reflexivity.
Defined.

End Pipeline.

(* ===================================================================== *)
(** * The provider seen by one caller: further properties *)
(* ===================================================================== *)

Module ProviderProps.
Import Provider.

(** What is left of the one-time guard: 1 while [once.Do] can still run
    its closure, 0 afterwards. *)
Definition pending (g : Globals) : nat := if once g then 0%nat else 1%nat.

(** Every [CallSet] of the sequence stores a client that is not nil. *)
Definition sets_nonnil (calls : list Call) : Prop :=
  Forall (fun c => match c with CallSet None => False | _ => True end) calls.

Lemma GetHttpClient_budget (g : Globals) :
  (constructed (GetHttpClient g).1 + pending (GetHttpClient g).1
   <= constructed g + pending g)%nat /\
  (constructed g <= constructed (GetHttpClient g).1)%nat.
Proof.
  unfold GetHttpClient, once_Do, pending.
  destruct (client g), (once g) eqn:Ho; simpl; rewrite ?Ho; simpl; lia.
Qed.

(** X2. Over any sequence of calls of [GetHttpClient] and
    [SetHttpClient] (nil included), the constructing closure runs at most
    once, and not at all once the guard is consumed; the guard is never
    restored. *)
Theorem construct_at_most_once (calls : list Call) (g : Globals) :
  (constructed g <= constructed (run calls g).1 <= constructed g + pending g)%nat /\
  (pending (run calls g).1 <= pending g)%nat.
Proof.
  revert g. induction calls as [|c calls IH]; intros g; simpl; [lia|].
  destruct c as [|c].
  - pose proof (GetHttpClient_budget g) as [Hb Hm].
    destruct (GetHttpClient g) as [g1 r]. simpl in *.
    specialize (IH g1). destruct (run calls g1) as [g2 rs]. simpl in *.
    unfold pending in *. destruct (once g), (once g1), (once g2); lia.
  - specialize (IH (SetHttpClient c g)). unfold pending in *. simpl in IH. lia.
Qed.

Lemma gets_stored (k : nat) (g : Globals) (c : ClientRef) :
  client g = Some c -> run (replicate k CallGet) g = (g, replicate k (Some c)).
Proof.
  intros H. induction k as [|k IH]; [done|]. cbn [replicate run].
  by rewrite (GetHttpClient_stored g c H), IH.
Qed.

(** X1. In a process with no client stored and the guard untouched, the
    first [GetHttpClient] constructs the pooled client and every later
    one returns that same client: one construction for any number of
    calls. *)
Theorem lazy_init_shared (g : Globals) (k : nat) :
  client g = None -> once g = false ->
  run (replicate (S k) CallGet) g =
  (mkGlobals (Some (Pooled (constructed g))) true (S (constructed g)),
   replicate (S k) (Some (Pooled (constructed g)))).
Proof.
  intros Hc Ho. cbn [replicate run].
  assert (GetHttpClient g =
          (mkGlobals (Some (Pooled (constructed g))) true (S (constructed g)),
           Some (Pooled (constructed g)))) as ->.
  { unfold GetHttpClient, once_Do. by rewrite Hc, Ho. }
  by rewrite (gets_stored k (mkGlobals (Some (Pooled (constructed g))) true (S (constructed g)))
               (Pooled (constructed g)) eq_refl).
Qed.

Lemma lazy_init_shared_witness :
  run (replicate 3 CallGet) initial =
  (mkGlobals (Some (Pooled 0)) true 1, replicate 3 (Some (Pooled 0))).
Proof. apply (lazy_init_shared initial 2); reflexivity. Defined.

(** X4. Calling [GetHttpClient] again straight away returns the same
    pointer and changes nothing, from every state (the nil client of a
    consumed guard included). *)
Theorem GetHttpClient_idempotent (g : Globals) :
  GetHttpClient (GetHttpClient g).1 = GetHttpClient g.
Proof.
  destruct g as [[c|] [] n]; reflexivity.
Qed.

(** X3. As long as no caller stores nil, [GetHttpClient] never returns
    nil: from a state with a client stored or the guard untouched, and
    over any sequence of calls whose [SetHttpClient] arguments are not
    nil, every [GetHttpClient] returns a client. *)
Theorem GetHttpClient_nonnil (calls : list Call) (g : Globals) :
  sets_nonnil calls ->
  client g <> None \/ once g = false ->
  Forall is_Some (run calls g).2.
Proof.
  intros Hs. revert g. induction Hs as [|c calls Hc _ IH]; intros g Hg; simpl.
  - constructor.
  - destruct c as [|[c|]]; [| |done].
    + assert (is_Some (GetHttpClient g).2 /\ client (GetHttpClient g).1 <> None)
        as [Hr Hn].
      { unfold GetHttpClient, once_Do.
        destruct (client g) eqn:Hcl; simpl; [by rewrite Hcl; eauto|].
        destruct Hg as [Hg|Hg]; [done|]. rewrite Hg. simpl. eauto. }
      destruct (GetHttpClient g) as [g1 r]. simpl in *.
      specialize (IH g1 (or_introl Hn)).
      destruct (run calls g1) as [g2 rs]. simpl in *. by constructor.
    + apply IH. by left.
Qed.

Lemma GetHttpClient_nonnil_witness :
  Forall is_Some
    (run [CallGet; CallSet (Some (Custom 3)); CallGet; CallGet] initial).2.
Proof.
  apply GetHttpClient_nonnil.
  - repeat constructor.
  - by right.
Defined.

End ProviderProps.

(* ===================================================================== *)
(** * Concurrent callers: further properties *)
(* ===================================================================== *)

Module ConcurrentProps.
Import Provider Concurrent.

(** [n] callers at the top of [GetHttpClient] in a process whose package
    variables are [g] (for instance after a [SetHttpClient]). *)
Definition init_with (g : Globals) (n : nat) : Config :=
  mkConfig g None (replicate n AtCheck).

(** Both callers have found [client] nil; caller 0 has taken the mutex
    and stands before the closure, caller 1 waits for the mutex. *)
Definition contended : Config :=
  mkConfig initial (Some 0%nat) [AtConstruct; AtLock].

(** With a client stored, a caller has one action: return it. *)
Record served (g : Globals) (cl : ClientRef) (c : Config) : Prop := mkServed {
  served_vars : vars c = g;
  served_owner : owner c = None;
  served_threads :
    Forall (fun p => p = AtCheck \/ p = Returned (Some cl)) (threads c);
}.

Lemma thread_ok_holds (g : Globals) (m : option nat) (i : nat) (p : pc) :
  thread_ok g m i p -> holds p = true -> m = Some i.
Proof. destruct p; simpl; naive_solver. Qed.

(** X5. In every reachable state of [n] concurrent callers, two different
    goroutines are never both inside the critical section of [once.Do]
    (second check of the flag, the closure, the store of the flag, the
    unlock). *)
Theorem once_mutual_exclusion (n : nat) (c : Config) (i j : nat) (p q : pc) :
  rtc step (init n) c ->
  threads c !! i = Some p -> threads c !! j = Some q ->
  i <> j -> holds p = true ->
  holds q = false.
Proof.
  intros Hreach Hi Hj Hne Hp.
  pose proof (reachable_inv n c Hreach) as Hinv.
  pose proof (thread_ok_holds _ _ _ _ (inv_threads c Hinv i p Hi) Hp) as H1.
  destruct (holds q) eqn:Hq; [|done].
  pose proof (thread_ok_holds _ _ _ _ (inv_threads c Hinv j q Hj) Hq) as H2.
  congruence.
Qed.

Lemma once_mutual_exclusion_witness : holds AtLock = false.
Proof.
  apply (once_mutual_exclusion 2 contended 0 1 AtConstruct AtLock).
  - apply rtc_nsteps_2 with (n := 6%nat).
    apply (exec_nsteps [0; 1; 0; 1; 0; 0]%nat). reflexivity.
  - reflexivity.
  - reflexivity.
  - discriminate.
  - reflexivity.
Defined.

Lemma served_step (g : Globals) (cl : ClientRef) (c c' : Config) :
  client g = Some cl -> served g cl c -> step c c' -> served g cl c'.
Proof.
  intros Hcl [Hv Ho Ht] [i Hs]. unfold step_at in Hs.
  destruct (threads c !! i) as [p|] eqn:Hi; [|done].
  pose proof (Forall_lookup_1 _ _ _ _ Ht Hi) as [->| ->]; simpl in Hs; [|done].
  rewrite Hv, Hcl in Hs. simplify_eq. split; simpl; [done|done|].
  apply Forall_insert; [done|]. by right.
Qed.

Lemma served_reachable (g : Globals) (cl : ClientRef) (n : nat) (c : Config) :
  client g = Some cl -> rtc step (init_with g n) c -> served g cl c.
Proof.
  intros Hcl. revert c. apply rtc_ind_r.
  - split; simpl; [done|done|]. apply Forall_replicate. by left.
  - intros c c' _ Hs IH. by eapply served_step.
Qed.

Lemma step_length (c c' : Config) :
  step c c' -> length (threads c') = length (threads c).
Proof. intros [i Hi]. by eapply step_at_length. Qed.

(** X6. With a client stored, any number of concurrent [GetHttpClient]
    callers leave the package variables untouched (no locking, no
    construction), every one that has returned has received the stored
    client, and when none can move all have returned it. *)
Theorem override_concurrent_callers (g : Globals) (cl : ClientRef) (n : nat)
    (c : Config) :
  client g = Some cl ->
  rtc step (init_with g n) c ->
  vars c = g /\
  (forall i r, threads c !! i = Some (Returned r) -> r = Some cl) /\
  ((forall c', ~ step c c') ->
     forall i, (i < n)%nat -> threads c !! i = Some (Returned (Some cl))).
Proof.
  intros Hcl Hreach.
  destruct (served_reachable g cl n c Hcl Hreach) as [Hv Ho Ht].
  assert (Hlen : length (threads c) = n).
  { clear Hv Ho Ht. revert c Hreach. apply rtc_ind_r.
    - apply length_replicate.
    - intros c c' _ Hs IH. by rewrite (step_length _ _ Hs). }
  split_and!; [done| |].
  - intros i r Hi. by destruct (Forall_lookup_1 _ _ _ _ Ht Hi) as [?|[= ->]].
  - intros Hstuck i Hi.
    destruct (lookup_lt_is_Some_2 (threads c) i) as [p Hp]; [lia|].
    destruct (Forall_lookup_1 _ _ _ _ Ht Hp) as [->| ->]; [|done].
    exfalso. eapply Hstuck. exists i. unfold step_at.
    rewrite Hp. simpl. by rewrite Hv, Hcl.
Qed.

Lemma override_concurrent_callers_witness :
  let g := SetHttpClient (Some (Custom 1)) initial in
  let c := mkConfig g None [Returned (Some (Custom 1)); AtCheck;
                            Returned (Some (Custom 1))] in
  vars c = g /\
  (forall i r, threads c !! i = Some (Returned r) -> r = Some (Custom 1)) /\
  ((forall c', ~ step c c') ->
     forall i, (i < 3)%nat -> threads c !! i = Some (Returned (Some (Custom 1)))).
Proof.
  apply (override_concurrent_callers _ (Custom 1) 3); [reflexivity|].
  apply rtc_nsteps_2 with (n := 2%nat).
  apply (exec_nsteps [2; 0]%nat). reflexivity.
Defined.

End ConcurrentProps.

(* ===================================================================== *)
(** * The pipeline: further properties *)
(* ===================================================================== *)

Module PipelineProps.
Import Provider Pipeline.

(** ** Definitions *)

(** The options the package exports. *)
Inductive builtin : Option -> Prop :=
  | builtin_WithContext c : builtin (WithContext c)
  | builtin_WithTimeout t : builtin (WithTimeout t)
  | builtin_WithHeaders hs : builtin (WithHeaders hs)
  | builtin_WithData d : builtin (WithData d)
  | builtin_WithLogger l : builtin (WithLogger l)
  | builtin_WithSlowThreshold t : builtin (WithSlowThreshold t).

(** An option that succeeds and leaves the field read by [proj] alone. *)
Definition keeps {A} (proj : requestOption -> A) (opt : Option) : Prop :=
  forall o, (opt o).2 = None /\ proj (opt o).1 = proj o.

(** The value logged under [key]: the variadic tail of a log call lists
    keys and values in turn. *)
Fixpoint field (key : string) (args : list any) : option any :=
  match args with
  | AString k :: v :: rest => if bool_decide (k = key) then Some v else field key rest
  | _ => None
  end.

(** The bytes a logged body stands for: [Warn] is given the slice,
    [Debug] its conversion to a string. *)
Definition logged_bytes (a : any) : option (list Byte.byte) :=
  match a with
  | ABytes b => Some b
  | AString s => Some (String.list_byte_of_string s)
  | _ => None
  end.

Definition is_close_req (e : Event) : bool :=
  match e with EvCloseReqBody => true | _ => false end.

Definition is_close_resp (e : Event) : bool :=
  match e with EvCloseRespBody => true | _ => false end.

(** ** Results *)

(** X7. Whenever [Request] returns, its error is nil exactly when the
    status code it returns is 200, and a non-nil error comes with a nil
    body. *)
Theorem Request_result_shape (w : World) (g : Globals) (method url : string)
    (options : list Option) (code : Z) (body : list Byte.byte) (err : option goerror) :
  outcome (Request w g method url options) = Return code body err ->
  (err = None <-> code = 200) /\ (err <> None -> body = []).
Proof.
  by_path w g method url options; intros [= <- <- <-]; unfold StatusOK in *;
    (split; [split|]); try done; try congruence; intros; simplify_eq.
Qed.

Lemma Request_result_shape_witness :
  (Some (non200 503) = None <-> 503 = 200) /\ (Some (non200 503) <> None -> @nil Byte.byte = []).
Proof.
  apply (Request_result_shape (exampleWorld (reply 503 "busy") 10) initial "GET"
           "http://example.com" [] 503 [] (Some (non200 503))).
  reflexivity.
Defined.

(** X8. When an option fails, [Request] returns the zero status, a nil
    body and that option's error at once: the options after it are not
    applied, nothing is sent or logged, and the provider is not touched. *)
Theorem Request_option_failure_aborts (w : World) (g : Globals) (method url : string)
    (pre post : list Option) (opt : Option) (o o' : requestOption) (e : goerror) :
  applyOptions pre defaultRequestOptions = (o, None) ->
  opt o = (o', Some e) ->
  Request w g method url (pre ++ opt :: post) = mkResult g [] (Return 0 [] (Some e)).
Proof.
  intros Hpre Hopt. unfold Request.
  rewrite applyOptions_app, Hpre. simpl. by rewrite Hopt.
Qed.

Lemma Request_option_failure_aborts_witness :
  Request (exampleWorld (reply 200 "ok") 10) initial "GET" "http://example.com"
          ([WithTimeout Second] ++ failingOption (errors_New "bad") :: [WithData (bytes "x")])
  = mkResult initial [] (Return 0 [] (Some (errors_New "bad"))).
Proof.
  apply (Request_option_failure_aborts _ _ _ _ [WithTimeout Second] _
           (failingOption (errors_New "bad"))
           (WithTimeout Second defaultRequestOptions).1
           (WithTimeout Second defaultRequestOptions).1); reflexivity.
Defined.

(** X9. With options that resolve, a method that is not a token or a
    URL that does not parse makes [Request] return the zero status, a nil
    body and an error, with nothing sent, logged or closed and the
    provider not touched (no lazy construction). *)
Theorem Request_construction_failure (w : World) (g : Globals) (method url : string)
    (options : list Option) :
  (applyOptions options defaultRequestOptions).2 = None ->
  (method <> "" /\ validMethod method = false) \/ is_Some (url_Parse w url) ->
  exists e, Request w g method url options = mkResult g [] (Return 0 [] (Some e)).
Proof.
  intros Hn Hbad.
  assert (exists e, http_NewRequest w method url (data (resolve options)) = inr e)
    as [e He].
  { unfold http_NewRequest. destruct Hbad as [[Hne Hv]|[e He]].
    - rewrite bool_decide_eq_false_2 by done. rewrite Hv. simpl. eauto.
    - destruct (negb _); [eauto|]. rewrite He. eauto. }
  exists e. by_path w g method url options;
    try match goal with
        | H : applyOptions _ _ = _ |- _ => rewrite H in Hn; discriminate
        end; congruence.
Qed.

Lemma Request_construction_failure_witness :
  exists e, Request (exampleWorld (reply 200 "ok") 10) initial "BAD METHOD"
                    "http://example.com" [] = mkResult initial [] (Return 0 [] (Some e)).
Proof.
  apply Request_construction_failure; [reflexivity|].
  left. split; [discriminate|reflexivity].
Defined.

(** X10. When the transport fails, [Request] returns the zero status, a
    nil body and the transport's error as it is; the trace is the call
    and the closing of the request body. *)
Theorem Request_dispatch_failure (w : World) (g : Globals) (method url : string)
    (options : list Option) (c : ClientRef) (req : HttpRequest) (e : goerror) :
  (c, req) ∈ network_calls (trace (Request w g method url options)) ->
  client_Do w c req = inr e ->
  outcome (Request w g method url options) = Return 0 [] (Some e) /\
  trace (Request w g method url options) = [EvDo c req; EvCloseReqBody].
Proof.
  by_path w g method url options; intros Hin Hdo;
    first [ by apply elem_of_nil in Hin
          | apply list_elem_of_singleton in Hin; injection Hin as -> ->;
            try congruence ].
  split; congruence.
Qed.

Lemma Request_dispatch_failure_witness :
  let req := mkRequest "GET" "http://example.com" [] ∅
                       (WithTimeoutCtx Background (5 * Second)) in
  outcome (Request (exampleWorld refused 10) initial "GET" "http://example.com" [])
    = Return 0 [] (Some (libError "dial tcp: connection refused")) /\
  trace (Request (exampleWorld refused 10) initial "GET" "http://example.com" [])
    = [EvDo (Pooled 0) req; EvCloseReqBody].
Proof.
  apply (Request_dispatch_failure (exampleWorld refused 10) initial "GET"
           "http://example.com" [] (Pooled 0)).
  - vm_compute. apply list_elem_of_here.
  - reflexivity.
Defined.

(** X11. An invocation makes at most one network call, and none when an
    option fails, when the request cannot be built or when the provider
    has no client; the request of a call goes through the provider's
    current client and carries the resolved body and the resolved scope
    bounded by the resolved timeout. *)
Theorem Request_one_network_call (w : World) (g : Globals) (method url : string)
    (options : list Option) :
  let calls := network_calls (trace (Request w g method url options)) in
  (length calls <= 1)%nat /\
  (is_Some (applyOptions options defaultRequestOptions).2 -> calls = []) /\
  ((exists e, http_NewRequest w method url (data (resolve options)) = inr e) ->
   calls = []) /\
  ((GetHttpClient g).2 = None -> calls = []) /\
  (forall c req, (c, req) ∈ calls ->
     (GetHttpClient g).2 = Some c /\
     Body req = data (resolve options) /\
     Ctx req = WithTimeoutCtx (ctx (resolve options)) (timeout (resolve options))).
Proof.
  cbv zeta. split_and!.
  - by_path w g method url options; simpl; lia.
  - intros [e He]. by_path w g method url options; try done;
      try match goal with
          | H : applyOptions _ _ = _ |- _ => rewrite H in He; discriminate
          end; congruence.
  - intros [e He]. by_path w g method url options; try done; congruence.
  - intros Hg. by_path w g method url options; try done;
      rewrite H1 in Hg; discriminate.
  - intros c req Hin.
    apply Request_network_calls in Hin as (req0 & g' & _ & Hnew & Hg & ->).
    apply http_NewRequest_inl in Hnew. subst req0. by rewrite Hg.
Qed.

(** X12. When the provider has no client left (nil stored, guard
    consumed) and the request can be built, [Request] panics at
    [client.Do]: nothing is sent or logged, and the request body is still
    closed. *)
Theorem Request_nil_client_panics (w : World) (g : Globals) (method url : string)
    (options : list Option) :
  client g = None -> once g = true ->
  (applyOptions options defaultRequestOptions).2 = None ->
  validMethod method = true -> url_Parse w url = None ->
  Request w g method url options = mkResult g [EvCloseReqBody] Panic.
Proof.
  intros Hc Ho Hn Hm Hu.
  pose proof (GetHttpClient_consumed g Hc Ho) as Hg.
  pose proof (http_NewRequest_ok w method url (data (resolve options)) Hm Hu) as Hreq.
  by_path w g method url options;
    try match goal with
        | H : applyOptions _ _ = _ |- _ => rewrite H in Hn; discriminate
        end; congruence.
Qed.

Lemma Request_nil_client_panics_witness :
  Request (exampleWorld (reply 200 "ok") 10) (mkGlobals None true 1) "GET"
          "http://example.com" []
  = mkResult (mkGlobals None true 1) [EvCloseReqBody] Panic.
Proof. apply Request_nil_client_panics; reflexivity. Defined.

(** X13. [Request] changes the provider only through [GetHttpClient].
    With a client stored it leaves the package variables as they are and
    sends through that client; on a fresh provider a call that sends has
    constructed the pooled client, consumed the guard and sent through
    it. *)
Theorem Request_uses_shared_client (w : World) (g : Globals) (method url : string)
    (options : list Option) :
  let r := Request w g method url options in
  (globals r = g \/ globals r = (GetHttpClient g).1) /\
  (forall c, client g = Some c ->
     globals r = g /\
     forall c' req, (c', req) ∈ network_calls (trace r) -> c' = c) /\
  (client g = None -> once g = false ->
     forall c' req, (c', req) ∈ network_calls (trace r) ->
       c' = Pooled (constructed g) /\
       globals r = mkGlobals (Some c') true (S (constructed g))).
Proof.
  cbv zeta. split_and!.
  - by_path w g method url options; try (by left);
      right; by rewrite H1.
  - intros c Hc. pose proof (GetHttpClient_stored g c Hc) as Hg. split.
    + by_path w g method url options; congruence.
    + intros c' req Hin.
      apply Request_network_calls in Hin as (req0 & g' & _ & _ & Hg' & _).
      congruence.
  - intros Hc Ho c' req Hin.
    assert (Hg : GetHttpClient g =
                 (mkGlobals (Some (Pooled (constructed g))) true (S (constructed g)),
                  Some (Pooled (constructed g)))).
    { unfold GetHttpClient, once_Do. by rewrite Hc, Ho. }
    revert Hin. by_path w g method url options; intros Hin;
      first [ by apply elem_of_nil in Hin
            | apply list_elem_of_singleton in Hin; injection Hin as -> ->;
              rewrite Hg in *; by simplify_eq ].
Qed.


(** ** Headers *)

(** The value sent under a key that is alone of its canonical form. *)
Lemma sent_header_unique (w : World) (g : Globals) (method url : string)
    (options : list Option) (c : ClientRef) (req : HttpRequest) (k v : string) :
  (c, req) ∈ network_calls (trace (Request w g method url options)) ->
  headers (resolve options) !! k = Some v ->
  (forall k', is_Some (headers (resolve options) !! k') ->
     CanonicalMIMEHeaderKey k' = CanonicalMIMEHeaderKey k -> k' = k) ->
  Header req !!! CanonicalMIMEHeaderKey k = [v].
Proof.
  intros Hin Hk Huniq.
  apply Request_network_calls in Hin as (req0 & g' & _ & Hnew & _ & ->).
  apply http_NewRequest_inl in Hnew. subst req0.
  by apply outgoing_header_unique.
Qed.

(** X14. On the request sent, the values under a canonical key are, up
    to order, those of the resolved headers whose key has that canonical
    form: a key alone of its form is sent with exactly its value, and a
    form no resolved key has is absent. *)
Theorem Request_headers_sent (w : World) (g : Globals) (method url : string)
    (options : list Option) (c : ClientRef) (req : HttpRequest) :
  (c, req) ∈ network_calls (trace (Request w g method url options)) ->
  let resolved := headers (resolve options) in
  (forall ck,
     Header req !!! ck ≡ₚ
     (filter (fun kv => CanonicalMIMEHeaderKey kv.1 = ck) (map_to_list resolved)).*2) /\
  (forall k v,
     resolved !! k = Some v ->
     (forall k', is_Some (resolved !! k') ->
        CanonicalMIMEHeaderKey k' = CanonicalMIMEHeaderKey k -> k' = k) ->
     Header req !!! CanonicalMIMEHeaderKey k = [v]) /\
  (forall ck,
     (forall k', is_Some (resolved !! k') -> CanonicalMIMEHeaderKey k' <> ck) ->
     Header req !!! ck = []).
Proof.
  intros Hin resolved.
  apply Request_network_calls in Hin as (req0 & g' & _ & Hnew & _ & ->).
  apply http_NewRequest_inl in Hnew. subst req0.
  assert (Hperm : forall ck,
    Header (outgoing w (resolve options)
              (mkRequest (if bool_decide (method = "") then "GET" else method)
                         url (data (resolve options)) ∅ Background)) !!! ck ≡ₚ
    (filter (fun kv => CanonicalMIMEHeaderKey kv.1 = ck) (map_to_list resolved)).*2).
  { intros ck. unfold outgoing. cbn [Header]. fold resolved.
    case_bool_decide as Hsize.
    - rewrite addHeaders_lookup_total, lookup_total_empty. simpl.
      by rewrite (range_perm w resolved).
    - apply map_size_empty_inv in Hsize.
      rewrite Hsize, map_to_list_empty, lookup_total_empty. done. }
  split_and!.
  - done.
  - intros k v Hk Huniq. by apply outgoing_header_unique.
  - intros ck Hnone. apply Permutation_nil_r. rewrite (Hperm ck).
    destruct (filter _ (map_to_list resolved)) as [|[k v] l] eqn:Hf; [done|].
    assert (Hel : (k, v) ∈ filter (fun kv => CanonicalMIMEHeaderKey kv.1 = ck)
                                  (map_to_list resolved))
      by (rewrite Hf; apply list_elem_of_here).
    apply list_elem_of_filter in Hel as [Hc Hkv%elem_of_map_to_list].
    destruct (Hnone k); eauto.
Qed.


Lemma Request_headers_sent_witness :
  let options := [WithHeaders {["Authorization" := "Bearer token123";
                                "x-custom-header" := "value"]}] in
  let req := mkRequest "GET" "http://example.com" []
               {["Authorization" := ["Bearer token123"];
                 "X-Custom-Header" := ["value"]]}
               (WithTimeoutCtx Background (5 * Second)) in
  let resolved := headers (resolve options) in
  (forall ck,
     Header req !!! ck ≡ₚ
     (filter (fun kv => CanonicalMIMEHeaderKey kv.1 = ck) (map_to_list resolved)).*2) /\
  (forall k v,
     resolved !! k = Some v ->
     (forall k', is_Some (resolved !! k') ->
        CanonicalMIMEHeaderKey k' = CanonicalMIMEHeaderKey k -> k' = k) ->
     Header req !!! CanonicalMIMEHeaderKey k = [v]) /\
  (forall ck,
     (forall k', is_Some (resolved !! k') -> CanonicalMIMEHeaderKey k' <> ck) ->
     Header req !!! ck = []).
Proof.
  intros options req.
  apply (Request_headers_sent (exampleWorld (reply 200 "ok") 10) initial "GET"
           "http://example.com" options (Pooled 0) req).
  vm_compute. apply list_elem_of_here.
Defined.

(** ** The log call *)

Lemma field_logCall (o : requestOption) (method url : string)
    (body : list Byte.byte) (err : option goerror) (dur : Z) :
  exists m tag args,
    logCall o method url body err dur = EvLog (logger o) m (ctx o) tag args /\
    field "method" args = Some (AString method) /\
    field "url" args = Some (AString url) /\
    (field "body" args ≫= logged_bytes) = Some (data o) /\
    (field "reply" args ≫= logged_bytes) = Some body /\
    field "err" args = Some (AError err) /\
    field "dur/ms" args = Some (ADuration dur).
Proof.
  unfold logCall. destruct (_ && _); do 3 eexists; (split; [reflexivity|]);
    simpl; rewrite ?String.list_byte_of_string_of_list_byte; done.
Qed.

(** X15. A log call in the trace is made on the resolved logger with the
    context of the request sent, and reports the method and URL given,
    the body sent, the body and the error that [Request] returns, and the
    measured duration. *)
Theorem Request_log_reports_result (w : World) (g : Globals) (method url : string)
    (options : list Option) (l : Interface) (m : LogMethod) (cx : Context)
    (tag : string) (args : list any) :
  EvLog l m cx tag args ∈ trace (Request w g method url options) ->
  exists code body err c req,
    outcome (Request w g method url options) = Return code body err /\
    network_calls (trace (Request w g method url options)) = [(c, req)] /\
    l = logger (resolve options) /\
    cx = Ctx req /\
    field "method" args = Some (AString method) /\
    field "url" args = Some (AString url) /\
    (field "body" args ≫= logged_bytes) = Some (Body req) /\
    (field "reply" args ≫= logged_bytes) = Some body /\
    field "err" args = Some (AError err) /\
    field "dur/ms" args = Some (ADuration (time_Since w)).
Proof.
  pose proof (Request_path w g method url options) as HP.
  destruct HP as [| | | |req0 g' c resp Hn Hnew Hg Hdo Hcode
                       |req0 g' c resp Hn Hnew Hg Hdo Hcode];
    cbn [trace outcome]; intros Hin.
  1-4: set_unfold; naive_solver.
  all: apply http_NewRequest_inl in Hnew; subst req0.
  all: rewrite network_calls_responded.
  all: match goal with
       | H : _ ∈ [_; logCall ?o ?me ?u ?b ?e ?d; _; _] |- _ =>
           destruct (field_logCall o me u b e d)
             as (m' & tag' & args' & Hlog & Hf1 & Hf2 & Hf3 & Hf4 & Hf5 & Hf6);
           rewrite Hlog in H
       end.
  all: repeat (apply elem_of_cons in Hin as [Hin|Hin]; [try discriminate|]);
       try by apply elem_of_nil in Hin.
  all: injection Hin as -> -> -> -> ->.
  all: do 5 eexists; split_and!; try done.
Qed.

Lemma Request_log_reports_result_witness :
  let w := exampleWorld (reply 404 "gone") 10 in
  let args := [AString "method"; AString "GET"; AString "url";
               AString "http://example.com"; AString "body"; AString "";
               AString "reply"; AString ""; AString "err";
               AError (Some (non200 404)); AString "dur/ms"; ADuration 10] in
  exists code body err c req,
    outcome (Request w initial "GET" "http://example.com" []) = Return code body err /\
    network_calls (trace (Request w initial "GET" "http://example.com" [])) = [(c, req)] /\
    Default = logger (resolve []) /\
    WithTimeoutCtx Background (5 * Second) = Ctx req /\
    field "method" args = Some (AString "GET") /\
    field "url" args = Some (AString "http://example.com") /\
    (field "body" args ≫= logged_bytes) = Some (Body req) /\
    (field "reply" args ≫= logged_bytes) = Some body /\
    field "err" args = Some (AError err) /\
    field "dur/ms" args = Some (ADuration (time_Since w)).
Proof.
  intros w args.
  apply (Request_log_reports_result w initial "GET" "http://example.com" []
           Default Debug (WithTimeoutCtx Background (5 * Second))
           "HTTP_REQUEST_DEBUG_LOG" args).
  vm_compute. apply list_elem_of_further, list_elem_of_here.
Defined.


(** ** Closing the bodies *)

(** X16. The trace is empty exactly when the request was not built;
    otherwise it ends with the closing of the request body, which happens
    once; the response body is closed as many times as there are log
    calls (once when a response came back, never otherwise), and always
    after the log call. *)
Theorem Request_closes_bodies (w : World) (g : Globals) (method url : string)
    (options : list Option) :
  let t := trace (Request w g method url options) in
  (t = [] \/ last t = Some EvCloseReqBody) /\
  (t = [] <->
   is_Some (applyOptions options defaultRequestOptions).2 \/
   exists e, http_NewRequest w method url (data (resolve options)) = inr e) /\
  (length (filter is_close_req t) <= 1)%nat /\
  length (filter is_close_resp t) = length (log_calls t) /\
  (forall i j l m cx tag args,
     t !! i = Some (EvLog l m cx tag args) -> t !! j = Some EvCloseRespBody ->
     (i < j)%nat).
Proof.
  pose proof (Request_path w g method url options) as HP.
  destruct HP; cbn [trace]; cbv zeta; unfold logCall;
    repeat match goal with |- context [if ?b then _ else _] => destruct b end;
    split_and!; simpl; try (by left); try (by right); try lia.
  all: try (split; [intros _|done]).
  all: try (split; [done|]).
  all: try (intros [[? Hs]|[? He]]; [|congruence]).
  all: try match goal with
           | H : applyOptions _ _ = _ |- _ => rewrite H in *; simpl in *
           end; try congruence; eauto.
  all: try (intros [|[|[|[|i]]]] [|[|[|[|j]]]] ???????; simpl; try done; lia).
Qed.

(** ** Options *)

(** X17. The six exported options never fail: a list made of them
    resolves without error from any starting state. *)
Theorem builtin_options_never_fail (options : list Option) (o : requestOption) :
  Forall builtin options -> (applyOptions options o).2 = None.
Proof.
  intros H. revert o. induction H as [|opt options Hopt _ IH]; intros o; simpl; [done|].
  destruct Hopt; simpl; apply IH.
Qed.

Lemma builtin_options_never_fail_witness :
  (applyOptions [WithTimeout (10 * Second);
                 WithHeaders {["Authorization" := "Bearer token123"]};
                 WithSlowThreshold (100 * Millisecond)] defaultRequestOptions).2 = None.
Proof. apply builtin_options_never_fail. repeat constructor. Defined.

Lemma applyOptions_keeps {A} (proj : requestOption -> A) (options : list Option)
    (o : requestOption) :
  Forall (keeps proj) options ->
  (applyOptions options o).2 = None /\ proj (applyOptions options o).1 = proj o.
Proof.
  intros H. revert o. induction H as [|opt options Hopt _ IH]; intros o; simpl; [done|].
  destruct (Hopt o) as [He Hp]. destruct (opt o) as [o' [e|]]; [done|].
  simpl in *. destruct (IH o') as [? ?]. split; congruence.
Qed.

Lemma last_writer {A} (proj : requestOption -> A) (set : Option) (v : A)
    (pre post : list Option) (o : requestOption) :
  (forall x, (set x).2 = None /\ proj (set x).1 = v) ->
  (applyOptions pre o).2 = None ->
  Forall (keeps proj) post ->
  (applyOptions (pre ++ set :: post) o).2 = None /\
  proj (applyOptions (pre ++ set :: post) o).1 = v.
Proof.
  intros Hset Hpre Hpost. rewrite applyOptions_app.
  destruct (applyOptions pre o) as [o1 [e|]]; [done|]. simpl.
  destruct (Hset o1) as [He Hv]. destruct (set o1) as [o2 [e|]]; [done|].
  simpl in *. destruct (applyOptions_keeps proj post o2 Hpost) as [? ?].
  split; congruence.
Qed.

(** X18. For each scalar field (context, timeout, body, logger, slow
    threshold) the last option that writes it wins: after options that
    succeed, the field has the value of its option whatever came before,
    provided the options after it leave the field alone. *)
Theorem scalar_options_last_writer_wins (pre post : list Option) (o : requestOption) :
  (applyOptions pre o).2 = None ->
  (forall c, Forall (keeps ctx) post ->
     ctx (applyOptions (pre ++ WithContext c :: post) o).1 = c) /\
  (forall t, Forall (keeps timeout) post ->
     timeout (applyOptions (pre ++ WithTimeout t :: post) o).1 = t) /\
  (forall d, Forall (keeps data) post ->
     data (applyOptions (pre ++ WithData d :: post) o).1 = d) /\
  (forall l, Forall (keeps logger) post ->
     logger (applyOptions (pre ++ WithLogger l :: post) o).1 = l) /\
  (forall t, Forall (keeps slowThreshold) post ->
     slowThreshold (applyOptions (pre ++ WithSlowThreshold t :: post) o).1 = t).
Proof.
  intros Hpre. split_and!; intros v Hpost;
    eapply last_writer; try done; intros x; done.
Qed.

Lemma scalar_options_last_writer_wins_witness :
  let pre := [WithTimeout Second; WithData (bytes "a")] in
  let post := [WithData (bytes "b")] in
  (forall c, Forall (keeps ctx) post ->
     ctx (applyOptions (pre ++ WithContext c :: post) defaultRequestOptions).1 = c) /\
  (forall t, Forall (keeps timeout) post ->
     timeout (applyOptions (pre ++ WithTimeout t :: post) defaultRequestOptions).1 = t) /\
  (forall d, Forall (keeps data) post ->
     data (applyOptions (pre ++ WithData d :: post) defaultRequestOptions).1 = d) /\
  (forall l, Forall (keeps logger) post ->
     logger (applyOptions (pre ++ WithLogger l :: post) defaultRequestOptions).1 = l) /\
  (forall t, Forall (keeps slowThreshold) post ->
     slowThreshold
       (applyOptions (pre ++ WithSlowThreshold t :: post) defaultRequestOptions).1 = t).
Proof.
  apply (scalar_options_last_writer_wins
           [WithTimeout Second; WithData (bytes "a")] [WithData (bytes "b")]).
  reflexivity.
Defined.


(** X21. [WithHeaders] merges: after it (and options that leave the
    headers alone) the resolved headers are its argument laid over the
    headers resolved before, so its keys take its values and every other
    key keeps the value it had. *)
Theorem WithHeaders_overlays (pre post : list Option) (o : requestOption)
    (h : gmap string string) :
  (applyOptions pre o).2 = None ->
  Forall (keeps headers) post ->
  let before := headers (applyOptions pre o).1 in
  let after := headers (applyOptions (pre ++ WithHeaders h :: post) o).1 in
  after = h ∪ before /\
  (forall k v, h !! k = Some v -> after !! k = Some v) /\
  (forall k, h !! k = None -> after !! k = before !! k).
Proof.
  intros Hpre Hpost before after.
  assert (Hafter : after = h ∪ before).
  { subst after before. rewrite applyOptions_app.
    destruct (applyOptions pre o) as [o1 [e|]]; [done|]. simpl.
    destruct (applyOptions_keeps headers post
                (mkOption (ctx o1) (timeout o1) (data o1)
                   (map_fold (fun k v acc => <[k:=v]> acc) (headers o1) h)
                   (logger o1) (slowThreshold o1)) Hpost) as [_ ->].
    simpl. apply overlay_union. }
  split_and!; [done| |].
  - intros k v Hk. rewrite Hafter. by apply lookup_union_Some_l.
  - intros k Hk. rewrite Hafter. by apply lookup_union_r.
Qed.

Lemma WithHeaders_overlays_witness :
  let pre := [WithHeaders {["Accept" := "text/plain"; "X-Env" := "dev"]}] in
  let post := [WithTimeout Second] in
  let h : gmap string string := {["X-Env" := "prod"]} in
  let before := headers (applyOptions pre defaultRequestOptions).1 in
  let after := headers (applyOptions (pre ++ WithHeaders h :: post)
                                     defaultRequestOptions).1 in
  after = h ∪ before /\
  (forall k v, h !! k = Some v -> after !! k = Some v) /\
  (forall k, h !! k = None -> after !! k = before !! k).
Proof.
  intros pre post h.
  apply (WithHeaders_overlays pre post defaultRequestOptions h).
  - reflexivity.
  - repeat constructor.
Defined.

(** ** Entry points *)

(** X19. [Post] with a caller [WithHeaders] whose keys are not spellings
    of Content-Type sends both: the caller's value under its key and
    [application/json] under Content-Type. *)
Theorem Post_adds_caller_headers (w : World) (g : Globals) (c : Context)
    (url : string) (d : list Byte.byte) (h : gmap string string) (k v : string)
    (cl : ClientRef) (req : HttpRequest) :
  h !! k = Some v ->
  (forall k', is_Some (h !! k') -> CanonicalMIMEHeaderKey k' <> "Content-Type") ->
  (forall k', is_Some (h !! k') ->
     CanonicalMIMEHeaderKey k' = CanonicalMIMEHeaderKey k -> k' = k) ->
  (cl, req) ∈ network_calls (trace (Post w g c url d [WithHeaders h])) ->
  Header req !!! CanonicalMIMEHeaderKey k = [v] /\
  Header req !!! "Content-Type" = ["application/json"].
Proof.
  intros Hk Hct Huniq Hin. unfold Post in Hin. simpl app in Hin.
  pose proof (fun k v => sent_header_unique _ _ _ _ _ _ _ k v Hin) as Hone.
  assert (Hres : headers (resolve [WithHeaders defaultHeader; WithData d;
                                   WithContext c; WithHeaders h])
                 = h ∪ defaultHeader).
  { unfold resolve. simpl. by rewrite !overlay_union, (right_id_L ∅ (∪)). }
  cbv zeta in Hone. rewrite Hres in Hone.
  assert (Hnot : h !! "Content-Type" = None).
  { destruct (h !! "Content-Type") eqn:E; [|done].
    destruct (Hct "Content-Type"); eauto. }
  assert (Hdom : forall k', is_Some ((h ∪ defaultHeader) !! k') ->
                   is_Some (h !! k') \/ k' = "Content-Type").
  { intros k' [x Hx]. apply lookup_union_Some_raw in Hx as [Hx|[_ Hx]]; [eauto|].
    right. unfold defaultHeader in Hx. by apply lookup_singleton_Some in Hx as [-> _]. }
  split.
  - apply Hone; [by apply lookup_union_Some_l|].
    intros k' Hk' Hc. destruct (Hdom k' Hk') as [Hh| ->]; [by apply Huniq|].
    destruct (Hct k); eauto.
  - apply (Hone "Content-Type" "application/json").
    + rewrite lookup_union_r by done. done.
    + intros k' Hk' Hc. destruct (Hdom k' Hk') as [Hh| ->]; [|done].
      by destruct (Hct k' Hh).
Qed.

Lemma Post_adds_caller_headers_witness :
  let req := mkRequest "POST" "http://example.com" (bytes "{}")
               {["Authorization" := ["Bearer token123"];
                 "Content-Type" := ["application/json"]]}
               (WithTimeoutCtx Background (5 * Second)) in
  Header req !!! CanonicalMIMEHeaderKey "Authorization" = ["Bearer token123"] /\
  Header req !!! "Content-Type" = ["application/json"].
Proof.
  intros req.
  apply (Post_adds_caller_headers (exampleWorld (reply 200 "ok") 10) initial
           Background "http://example.com" (bytes "{}")
           {["Authorization" := "Bearer token123"]} "Authorization" "Bearer token123"
           (Pooled 0) req).
  - reflexivity.
  - intros k' [x Hx]. apply lookup_singleton_Some in Hx as [<- _]. by vm_compute.
  - intros k' [x Hx] _. by apply lookup_singleton_Some in Hx as [<- _].
  - vm_compute. apply list_elem_of_here.
Defined.

Lemma resolve_Get (options : list Option) (c : Context) :
  (applyOptions options defaultRequestOptions).2 = None ->
  (applyOptions (options ++ [WithContext c]) defaultRequestOptions).2 = None /\
  resolve (options ++ [WithContext c]) =
  mkOption c (timeout (resolve options)) (data (resolve options))
           (headers (resolve options)) (logger (resolve options))
           (slowThreshold (resolve options)).
Proof.
  intros Hn. unfold resolve. rewrite applyOptions_app.
  by destruct (applyOptions options defaultRequestOptions) as [o [e|]].
Qed.

Lemma applyOptions_app_fails (xs ys : list Option) (o : requestOption) :
  is_Some (applyOptions xs o).2 -> is_Some (applyOptions (xs ++ ys) o).2.
Proof.
  intros H. rewrite applyOptions_app.
  by destruct (applyOptions xs o) as [o' [e|]]; [|destruct H].
Qed.

(** X20. [Get] sends what [Request] with method GET and the same options
    sends, except for the context, which is the scope argument bounded by
    the resolved timeout. *)
Theorem Get_is_Request_under_scope (w : World) (g : Globals) (c : Context)
    (url : string) (options : list Option) (cl : ClientRef) (req : HttpRequest) :
  (cl, req) ∈ network_calls (trace (Get w g c url options)) <->
  exists req',
    (cl, req') ∈ network_calls (trace (Request w g "GET" url options)) /\
    req = mkRequest (Method req') (URL req') (Body req') (Header req')
                    (WithTimeoutCtx c (timeout (resolve options))).
Proof.
  unfold Get. rewrite Request_network_calls. split.
  - intros (req0 & g' & Hn & Hnew & Hg & ->).
    destruct (applyOptions options defaultRequestOptions) as [o [e|]] eqn:Ho.
    { pose proof (applyOptions_app_fails options [WithContext c]
                    defaultRequestOptions) as Hf.
      rewrite Ho in Hf. destruct Hf as [x Hx]; [by eexists|]. congruence. }
    destruct (resolve_Get options c) as [_ Hr]; [by rewrite Ho|].
    rewrite Hr in *. cbn [data] in Hnew.
    exists (outgoing w (resolve options) req0). split.
    + apply Request_network_calls. exists req0, g'.
      split_and!; try done. by rewrite Ho.
    + done.
  - intros (req' & Hin & ->).
    apply Request_network_calls in Hin as (req0 & g' & Hn & Hnew & Hg & ->).
    destruct (resolve_Get options c Hn) as [Hn' Hr].
    exists req0, g'. rewrite Hr. by split_and!.
Qed.

End PipelineProps.

(* ===================================================================== *)
(** * The logger *)
(* ===================================================================== *)

Module Logging.
Import Provider.

(** ** Colours *)

Definition ESC : ascii := ascii_of_nat 27.

Definition Reset : string := String ESC "[0m".
Definition Red : string := String ESC "[31m".
Definition Green : string := String ESC "[32m".
Definition Yellow : string := String ESC "[33m".
Definition Magenta : string := String ESC "[35m".
Definition BlueBold : string := String ESC "[34;1m".

Definition newline : string := String (ascii_of_nat 10) "".

(** ** Levels *)

(** [LogLevel] is an [int]; the named levels start at [iota + 1]. *)
Definition Silent : Z := 1.
Definition Error : Z := 2.
Definition Warn : Z := 3.
Definition Info : Z := 4.
Definition Debug : Z := 5.

Record Config := mkLogConfig {
  Colorful : bool;
  LogLevel : Z;
}.

(** ** Writers *)

(** A [Writer] is known by its identity; what reaches it is the list of
    the [Printf] calls made on it. *)
Definition Writer := nat.

Record Printf := mkPrintf {
  dest : Writer;
  format : string;
  arguments : list Pipeline.any;
}.

(** ** The logger *)

Record logger := mkLogger {
  writer : Writer;
  config : Config;
  debugStr : string;
  infoStr : string;
  warnStr : string;
  errStr : string;
  traceStr : string;
  traceErrStr : string;
  traceWarnStr : string;
}.

Definition New (w : Writer) (cfg : Config) : logger :=
  let debugStr := "%s" +:+ newline +:+ "[debug] " in
  let infoStr := "%s" +:+ newline +:+ "[info] " in
  let warnStr := "%s" +:+ newline +:+ "[warn] " in
  let errStr := "%s" +:+ newline +:+ "[error] " in
  if Colorful cfg then
    mkLogger w cfg
      (Green +:+ "%s" +:+ newline +:+ Reset +:+ Yellow +:+ "[debug] " +:+ Reset)
      (Green +:+ "%s" +:+ newline +:+ Reset +:+ Green +:+ "[info] " +:+ Reset)
      (BlueBold +:+ "%s" +:+ newline +:+ Reset +:+ Magenta +:+ "[warn] " +:+ Reset)
      (Magenta +:+ "%s" +:+ newline +:+ Reset +:+ Red +:+ "[error] " +:+ Reset)
      "" "" ""
  else mkLogger w cfg debugStr infoStr warnStr errStr "" "" "".

(** [LogMode]: a copy of the logger with the level replaced. *)
Definition LogMode (l : logger) (level : Z) : logger :=
  mkLogger (writer l) (mkLogConfig (Colorful (config l)) level)
           (debugStr l) (infoStr l) (warnStr l) (errStr l)
           (traceStr l) (traceErrStr l) (traceWarnStr l).

(** ** Caller information *)

Fixpoint dropSlashes (cs : list ascii) : list ascii :=
  match cs with
  | c :: rest => if bool_decide (c = "/"%char) then dropSlashes rest else cs
  | [] => []
  end.

Fixpoint upToSlash (cs : list ascii) : list ascii :=
  match cs with
  | c :: rest => if bool_decide (c = "/"%char) then [] else c :: upToSlash rest
  | [] => []
  end.

(** [path.Base]: the last element of the path, trailing slashes dropped;
    ["."] for the empty path and ["/"] for a path of slashes only. *)
Definition path_Base (path : string) : string :=
  if bool_decide (path = "") then "."
  else
    let element := upToSlash (dropSlashes (rev (String.list_ascii_of_string path))) in
    if bool_decide (element = []) then "/"
    else String.string_of_list_ascii (rev element).

(** [getLoggerCallerInfo]: [caller] is what [runtime.Caller(3)] reports,
    the file and the line, or nothing. *)
Definition getLoggerCallerInfo (caller : option (string * Z)) : string :=
  match caller with
  | None => ""
  | Some (file, line) => path_Base file +:+ ":" +:+ pretty line
  end.

(** ** The four methods *)

(** Each method takes the context (and ignores it), the message and the
    variadic data; it returns the [Printf] calls it made. *)
Definition logger_Debug (l : logger) (caller : option (string * Z))
    (ctx : Pipeline.Context) (msg : string) (data : list Pipeline.any) : list Printf :=
  if bool_decide (LogLevel (config l) >= Debug) then
    [mkPrintf (writer l) (debugStr l +:+ msg)
              (Pipeline.AString (getLoggerCallerInfo caller) :: data)]
  else [].

Definition logger_Info (l : logger) (caller : option (string * Z))
    (ctx : Pipeline.Context) (msg : string) (data : list Pipeline.any) : list Printf :=
  if bool_decide (LogLevel (config l) >= Info) then
    [mkPrintf (writer l) (infoStr l +:+ msg)
              (Pipeline.AString (getLoggerCallerInfo caller) :: data)]
  else [].

Definition logger_Warn (l : logger) (caller : option (string * Z))
    (ctx : Pipeline.Context) (msg : string) (data : list Pipeline.any) : list Printf :=
  if bool_decide (LogLevel (config l) >= Warn) then
    [mkPrintf (writer l) (warnStr l +:+ msg)
              (Pipeline.AString (getLoggerCallerInfo caller) :: data)]
  else [].

Definition logger_Error (l : logger) (caller : option (string * Z))
    (ctx : Pipeline.Context) (msg : string) (data : list Pipeline.any) : list Printf :=
  if bool_decide (LogLevel (config l) >= Error) then
    [mkPrintf (writer l) (errStr l +:+ msg)
              (Pipeline.AString (getLoggerCallerInfo caller) :: data)]
  else [].

(** The call of method [m] of the interface on the logger [l]. *)
Definition call (l : logger) (m : Pipeline.LogMethod) :=
  match m with
  | Pipeline.Debug => logger_Debug l
  | Pipeline.Info => logger_Info l
  | Pipeline.Warn => logger_Warn l
  | Pipeline.Error => logger_Error l
  end.

(** The level from which method [m] prints. *)
Definition threshold (m : Pipeline.LogMethod) : Z :=
  match m with
  | Pipeline.Debug => Debug
  | Pipeline.Info => Info
  | Pipeline.Warn => Warn
  | Pipeline.Error => Error
  end.

(** [os.Stdout] behind [log.New]. *)
Definition stdout : Writer := 1%nat.

(** The package-level [Default] logger. *)
Definition Default : logger := New stdout (mkLogConfig true Warn).

(** A log event of the pipeline, delivered to the logger [impl] that
    stands behind the interface value. *)
Definition deliver (impl : logger) (caller : option (string * Z))
    (e : Pipeline.Event) : list Printf :=
  match e with
  | Pipeline.EvLog _ m cx msg args => call impl m caller cx msg args
  | _ => []
  end.

Fixpoint hasEscape (s : string) : bool :=
  match s with
  | EmptyString => false
  | String c s' => bool_decide (c = ESC) || hasEscape s'
  end.

(** The format prefix method [m] prints with. *)
Definition prefix (l : logger) (m : Pipeline.LogMethod) : string :=
  match m with
  | Pipeline.Debug => debugStr l
  | Pipeline.Info => infoStr l
  | Pipeline.Warn => warnStr l
  | Pipeline.Error => errStr l
  end.

(** What the [Default] logger prints for an invocation: the log events of
    the trace, delivered in order. *)
Definition printed (caller : option (string * Z)) (t : list Pipeline.Event)
  : list Printf :=
  t ≫= deliver Default caller.

(** ** Properties *)

Lemma call_spec (l : logger) (m : Pipeline.LogMethod) (caller : option (string * Z))
    (cx : Pipeline.Context) (msg : string) (data : list Pipeline.any) :
  call l m caller cx msg data =
  if bool_decide (LogLevel (config l) >= threshold m) then
    [mkPrintf (writer l) (prefix l m +:+ msg)
       (Pipeline.AString (getLoggerCallerInfo caller) :: data)]
  else [].
Proof. by destruct m. Qed.

Lemma threshold_range (m : Pipeline.LogMethod) : Silent < threshold m <= Debug.
Proof. destruct m; simpl; unfold Silent, Debug, Info, Warn, Error; lia. Qed.

(** X22. The levels are nested: a logger on which one method prints also
    prints, with one [Printf] on its writer, caller information first,
    every method of a lower or equal threshold (Debug, Info, Warn, Error
    in decreasing order); at level Silent or below nothing is printed,
    at level Debug or above everything is. *)
Theorem levels_are_nested (l : logger) :
  (forall m m' caller cx msg data caller' cx' msg' data',
     threshold m' <= threshold m ->
     call l m caller cx msg data <> [] ->
     call l m' caller' cx' msg' data' =
       [mkPrintf (writer l) (prefix l m' +:+ msg')
          (Pipeline.AString (getLoggerCallerInfo caller') :: data')]) /\
  (LogLevel (config l) <= Silent ->
   forall m caller cx msg data, call l m caller cx msg data = []) /\
  (Debug <= LogLevel (config l) ->
   forall m caller cx msg data, call l m caller cx msg data <> []).
Proof.
  split_and!.
  - intros m m' caller cx msg data caller' cx' msg' data' Hle.
    rewrite !call_spec. intros Hne.
    repeat case_bool_decide; try done; lia.
  - intros Hs m caller cx msg data. pose proof (threshold_range m).
    rewrite call_spec. case_bool_decide; [lia|done].
  - intros Hd m caller cx msg data. pose proof (threshold_range m).
    rewrite call_spec. case_bool_decide; [done|lia].
Qed.

(** X23. [LogMode] only gates: the last level set is the one in force, a
    method prints on the new logger exactly when the level reaches its
    threshold, what it prints is what the logger prints at level Debug,
    and at level Silent nothing is printed. *)
Theorem LogMode_only_gates (l : logger) (a b : Z) (m : Pipeline.LogMethod)
    (caller : option (string * Z)) (cx : Pipeline.Context) (msg : string)
    (data : list Pipeline.any) :
  LogMode (LogMode l a) b = LogMode l b /\
  call (LogMode l a) m caller cx msg data =
    (if bool_decide (threshold m <= a)
     then call (LogMode l Debug) m caller cx msg data else []) /\
  call (LogMode l Silent) m caller cx msg data = [].
Proof.
  pose proof (threshold_range m). split_and!.
  - done.
  - rewrite !call_spec. simpl.
    repeat case_bool_decide; try done; lia.
  - rewrite call_spec. simpl. case_bool_decide; [lia|done].
Qed.

Lemma hasEscape_app (s t : string) :
  hasEscape (s +:+ t) = hasEscape s || hasEscape t.
Proof.
  induction s as [|c s IH]; simpl; [done|]. rewrite IH. by rewrite orb_assoc.
Qed.

(** X24. A logger made by [New] (whatever level is set afterwards) puts
    an escape sequence in a format string exactly when it is colourful
    or the message itself contains one. *)
Theorem colours_only_when_colorful (w : Writer) (cfg : Config) (a : Z)
    (m : Pipeline.LogMethod) (caller : option (string * Z)) (cx : Pipeline.Context)
    (msg : string) (data : list Pipeline.any) (p : Printf) :
  p ∈ call (LogMode (New w cfg) a) m caller cx msg data ->
  hasEscape (format p) = Colorful cfg || hasEscape msg.
Proof.
  rewrite call_spec. case_bool_decide; [|by intros ?%elem_of_nil].
  intros ->%list_elem_of_singleton. cbn [format]. rewrite hasEscape_app.
  f_equal. unfold New. by destruct (Colorful cfg), m.
Qed.

Lemma colours_only_when_colorful_witness :
  hasEscape (format (mkPrintf 7%nat ("%s" +:+ newline +:+ "[warn] " +:+ "slow")
                              [Pipeline.AString "main.go:12"]))
  = Colorful (mkLogConfig false Debug) || hasEscape "slow".
Proof.
  apply (colours_only_when_colorful 7%nat (mkLogConfig false Debug) Warn Pipeline.Warn
           (Some ("/srv/app/main.go", 12)) Pipeline.Background "slow" []).
  vm_compute. apply list_elem_of_here.
Defined.

(** X25. With options that leave the logger alone, the log calls of
    [Request] go to the default logger, which prints at most one line,
    on standard output with the warn prefix and the slow-request tag, and
    only when the slow threshold is positive and reached; it does print
    one when a response came back and the threshold is reached.  A call
    that is not slow prints nothing. *)
Theorem Default_prints_slow_requests_only (w : Pipeline.World) (g : Globals)
    (method url : string) (options : list Pipeline.Option)
    (caller : option (string * Z)) :
  Forall (PipelineProps.keeps Pipeline.logger) options ->
  let r := Pipeline.Request w g method url options in
  let slow := 0 < Pipeline.slowThreshold (Pipeline.resolve options)
              <= Pipeline.time_Since w in
  (forall l m cx tag args,
     Pipeline.EvLog l m cx tag args ∈ Pipeline.trace r -> l = Pipeline.Default) /\
  (length (printed caller (Pipeline.trace r)) <= 1)%nat /\
  (forall p, p ∈ printed caller (Pipeline.trace r) ->
     dest p = stdout /\
     format p = warnStr Default +:+ "HTTP_REQUEST_SLOW_LOG" /\ slow) /\
  ((exists c req resp,
      (c, req) ∈ Pipeline.network_calls (Pipeline.trace r) /\
      Pipeline.client_Do w c req = inl resp) ->
   slow -> printed caller (Pipeline.trace r) <> []).
Proof.
  intros Hkeep r slow. subst r.
  destruct (PipelineProps.applyOptions_keeps Pipeline.logger options
              Pipeline.defaultRequestOptions Hkeep) as [_ Hl].
  fold (Pipeline.resolve options) in Hl. cbn in Hl.
  pose proof (Pipeline.Request_path w g method url options) as HP.
  destruct HP; cbn [Pipeline.trace]; unfold printed, Pipeline.logCall; cbn.
  1-4: split_and!; try (simpl; lia);
       try (intros; set_unfold; naive_solver);
       try (intros (?&?&?&Hin&?) _; apply list_elem_of_singleton in Hin;
            injection Hin as -> ->; congruence).
  all: rewrite Hl.
  all: destruct (Z.ltb_spec 0 (Pipeline.slowThreshold (Pipeline.resolve options)));
       destruct (Z.leb_spec (Pipeline.slowThreshold (Pipeline.resolve options))
                            (Pipeline.time_Since w)); cbn.
  all: split_and!; try (simpl; lia).
  all: try (intros ????? Hin;
            repeat (apply elem_of_cons in Hin as [Hin|Hin]; [try discriminate|]);
            [by injection Hin as -> | by apply elem_of_nil in Hin]).
  all: try (intros p Hin; apply list_elem_of_singleton in Hin as ->;
            cbn; split_and!; try done; subst slow; lia).
  all: try (intros p Hin; by apply elem_of_nil in Hin).
  all: try (intros _ Hs; subst slow; first [done | lia]).
Qed.

(** The slow handler of the package's test, on the default logger. *)
Lemma Default_prints_slow_requests_only_witness :
  let w := Pipeline.exampleWorld (Pipeline.reply 200 "ok") (100 * Pipeline.Millisecond) in
  let options := [Pipeline.WithSlowThreshold (50 * Pipeline.Millisecond)] in
  let caller := Some ("/src/httptool.go", 85) in
  let r := Pipeline.Request w initial "GET" "http://example.com" options in
  let slow := 0 < Pipeline.slowThreshold (Pipeline.resolve options)
              <= Pipeline.time_Since w in
  (forall l m cx tag args,
     Pipeline.EvLog l m cx tag args ∈ Pipeline.trace r -> l = Pipeline.Default) /\
  (length (printed caller (Pipeline.trace r)) <= 1)%nat /\
  (forall p, p ∈ printed caller (Pipeline.trace r) ->
     dest p = stdout /\
     format p = warnStr Default +:+ "HTTP_REQUEST_SLOW_LOG" /\ slow) /\
  ((exists c req resp,
      (c, req) ∈ Pipeline.network_calls (Pipeline.trace r) /\
      Pipeline.client_Do w c req = inl resp) ->
   slow -> printed caller (Pipeline.trace r) <> []).
Proof.
  intros w options caller.
  apply (Default_prints_slow_requests_only w initial "GET" "http://example.com"
           options caller).
  repeat constructor.
Defined.

End Logging.
